(** * Connection lifecycle (package tcp) and cast dispatch (package cast)

    A shallow embedding of [tcp.ListenWithListener], [tcp.Dial],
    [cast.Cast] and [cast.AcceptCast].

    Go's effects are made explicit:
    - a call frame carries the events it has performed and its stack of
      deferred calls; a panic stops the body and unwinds that stack, most
      recently deferred call first;
    - a goroutine is recorded, at the place where it is spawned, with the
      events of its own frame;
    - every blocking operation ([Accept], [DialContext], [select]) takes
      what the environment answers as an input; when the answers run out
      the call is still blocked and has no result yet;
    - time is a logical clock in nanoseconds.

    Caller-supplied code ([handle], a policy's cleanup) either returns or
    panics; [allow], [handleErr], [Accept] and [Close] return.  A goroutine
    that ends panicking takes the process down once its deferred calls have
    run: a trace records what each frame does up to that point. *)

From Stdlib Require Import List ZArith String Bool Lia.
Import ListNotations.

Local Open Scope list_scope.

(** ** Go values shared by both packages *)
Module Go.

(** An [error] built by [fmt.Errorf] is known by its [Error()] text. *)
Definition error := string.

(** How a call into caller-supplied code ends. *)
Inductive outcome := Returns | Panics.

(** [int] on a 64-bit platform: [attempt++] wraps around. *)
Definition int_min : Z := - 2 ^ 63.
Definition int_max : Z := 2 ^ 63 - 1.
Definition wrap_int (z : Z) : Z := ((z - int_min) mod 2 ^ 64 + int_min)%Z.
Definition int_incr (z : Z) : Z := wrap_int (z + 1).

(** [time.Second], in nanoseconds. *)
Definition Second : Z := 1000000000%Z.

(** *** [select] with a receive from [ctx.Done()] and one channel send *)
Inductive chosen :=
  | CaseDone (e : error)   (* <-ctx.Done() proceeded; ctx.Err() is e *)
  | CaseSend.              (* the send proceeded *)

Record select_env := {
  done_now : option error;  (* ctx.Done() is already closed on entry *)
  send_now : bool;          (* the channel can take the value on entry *)
  pick_send : bool;         (* the runtime's pseudo-random pick when both
                               communications can proceed *)
  first_later : option chosen (* neither can proceed on entry: the one
                                 that becomes ready first, if any does *)
}.

(** [None]: the goroutine stays blocked in the [select]. *)
Definition select2 (s : select_env) : option chosen :=
  match done_now s, send_now s with
  | Some e, true => Some (if pick_send s then CaseSend else CaseDone e)
  | Some e, false => Some (CaseDone e)
  | None, true => Some CaseSend
  | None, false => first_later s
  end.

End Go.

(** ** Package tcp *)
Module Tcp.
Import Go.

Definition Conn := nat.

(** The cleanup closure a policy may return: a tag to recognise it in a
    trace, and how calling it ends. *)
Record cleanupFn := { cleanup_tag : nat; cleanup_ends : outcome }.

(** What a call frame does. *)
Inductive ev :=
  | Handle (c : Conn)        (* handle(conn) *)
  | Cleanup (k : nat)        (* cleanup() *)
  | Close (c : Conn)         (* conn.Close() *)
  | ListenerClose.           (* listener.Close() *)

Definition ev_eq_dec (a b : ev) : {a = b} + {a <> b}.
Proof. decide equality; apply Nat.eq_dec. Defined.

Definition occurrences (e : ev) (l : list ev) : nat := count_occ ev_eq_dec l e.

(** Index of the first occurrence. *)
Fixpoint position (e : ev) (l : list ev) : option nat :=
  match l with
  | [] => None
  | x :: r => if ev_eq_dec e x then Some 0
              else option_map S (position e r)
  end.

(** [a] occurs, [b] occurs, and [a]'s first occurrence comes first. *)
Definition before (a b : ev) (l : list ev) : Prop :=
  match position a l, position b l with
  | Some i, Some j => i < j
  | _, _ => False
  end.

(** The deferred calls of the source, defunctionalised. *)
Inductive thunk :=
  | DeferConnClose (c : Conn)
      (* defer conn.Close() *)
  | DeferCleanup (k : option cleanupFn)
      (* defer func() { if cleanup != nil { cleanup() } }() *)
  | DeferSetErrClose (c : Conn).
      (* defer func() { err = conn.Close() }() *)

Section WithConnections.

(** What [conn.Close()] returns for each connection. *)
Variable closeErr : Conn -> option error.

(** *** Call frames: events, deferred calls, the named result *)
Record frame := {
  done : list ev;
  deferred : list thunk;      (* head: most recently deferred *)
  named : option error        (* the named result [err], nil at entry *)
}.

Definition enter : frame := {| done := []; deferred := []; named := None |}.

Definition Body := frame -> outcome * frame.

Definition seq (a b : Body) : Body :=
  fun f => match a f with
           | (Returns, f') => b f'
           | (Panics, f') => (Panics, f')
           end.

Definition defer_ (t : thunk) : Body :=
  fun f => (Returns, {| done := done f;
                        deferred := t :: deferred f;
                        named := named f |}).

Definition call (e : ev) (o : outcome) : Body :=
  fun f => (o, {| done := done f ++ [e];
                  deferred := deferred f;
                  named := named f |}).

(** One deferred call: its events, how it ends, the named result after. *)
Definition run_thunk (t : thunk) (res : option error)
  : list ev * outcome * option error :=
  match t with
  | DeferConnClose c => ([Close c], Returns, res)
  | DeferCleanup None => ([], Returns, res)
  | DeferCleanup (Some k) => ([Cleanup (cleanup_tag k)], cleanup_ends k, res)
  | DeferSetErrClose c => ([Close c], Returns, closeErr c)
  end.

(** Deferred calls run in stack order whether or not the frame is
    panicking; a panic raised by one of them leaves the frame
    panicking, and the remaining ones still run. *)
Fixpoint unwind (stack : list thunk) (o : outcome) (res : option error)
  : list ev * outcome * option error :=
  match stack with
  | [] => ([], o, res)
  | t :: rest =>
      let '(evs, o1, res1) := run_thunk t res in
      let o2 := match o, o1 with Returns, Returns => Returns | _, _ => Panics end in
      let '(evs', o3, res3) := unwind rest o2 res1 in
      (evs ++ evs', o3, res3)
  end.

Definition run (b : Body) : list ev * outcome * option error :=
  let '(o, f) := b enter in
  let '(evs, o', res) := unwind (deferred f) o (named f) in
  (done f ++ evs, o', res).

Notation "a ;; b" := (seq a b) (at level 61, right associativity).

(** *** ListenWithListener *)

Definition handleFn := Conn -> outcome.
Definition allowFn := Conn -> option error * option cleanupFn.

(** go func() { defer conn.Close(); handle(conn) }() *)
Definition serve_open (handle : handleFn) (c : Conn) : Body :=
  defer_ (DeferConnClose c) ;;
  call (Handle c) (handle c).

(** go func() { defer conn.Close();
                defer func() { if cleanup != nil { cleanup() } }();
                handle(conn) }() *)
Definition serve_admitted (handle : handleFn) (c : Conn)
           (cleanup : option cleanupFn) : Body :=
  defer_ (DeferConnClose c) ;;
  defer_ (DeferCleanup cleanup) ;;
  call (Handle c) (handle c).

(** What the accept loop does. *)
Inductive loop_ev :=
  | Accepted (c : Conn)              (* listener.Accept() returned conn *)
  | Reported (e : error)             (* handleErr(e), when one was given *)
  | Allowed (c : Conn)               (* allow(conn) was evaluated *)
  | Spawned (c : Conn) (evs : list ev) (o : outcome)
                                     (* go func() {...}() and its frame *)
  | Did (e : ev).                    (* a call made by the loop itself *)

Definition spawn (c : Conn) (b : Body) : loop_ev :=
  let '(evs, o, _) := run b in Spawned c evs o.

(** Lines 65-87: the loop body once [Accept] has returned [conn]. *)
Definition serve (handle : handleFn) (allow : option allowFn) (c : Conn)
  : list loop_ev :=
  match allow with
  | None => [spawn c (serve_open handle c)]
  | Some policy =>
      match policy c with
      | (None, cleanup) =>
          [Allowed c; spawn c (serve_admitted handle c cleanup)]
      | (Some _, _) => [Allowed c; Did (Close c)]
      end
  end.

(** What the environment answers in one turn of the loop. *)
Inductive tick :=
  | CtxDone (e : error)       (* ctx.Done() is closed; ctx.Err() is e *)
  | AcceptFails (e : error)   (* Accept returns an error *)
  | AcceptGives (c : Conn).   (* Accept returns a connection *)

Definition report (handleErr : bool) (e : error) : list loop_ev :=
  if handleErr then [Reported e] else [].

(** The [for] loop; [None] as result: still blocked in [Accept]. *)
Fixpoint accept_loop (handle : handleFn) (handleErr : bool)
         (allow : option allowFn) (ticks : list tick)
  : list loop_ev * option (option error) :=
  match ticks with
  | [] => ([], None)
  | CtxDone e :: _ => ([], Some (Some e))
  | AcceptFails e :: rest =>
      let '(tr, r) := accept_loop handle handleErr allow rest in
      (report handleErr ("accept connection: " ++ e)%string ++ tr, r)
  | AcceptGives c :: rest =>
      let '(tr, r) := accept_loop handle handleErr allow rest in
      (Accepted c :: serve handle allow c ++ tr, r)
  end.

Definition ListenWithListener (handle : option handleFn) (handleErr : bool)
           (allow : option allowFn) (ticks : list tick)
  : list loop_ev * option (option error) :=
  match handle with
  | None => ([], Some (Some "nil handle function"%string))
  | Some h =>
      (* defer listener.Close() *)
      let '(tr, r) := accept_loop h handleErr allow ticks in
      match r with
      | Some e => (tr ++ [Did ListenerClose], Some e)
      | None => (tr, None)
      end
  end.

(** Reading a listener trace. *)

(** [allow == nil], or [allow(conn)] returns a nil error. *)
Definition admits (allow : option allowFn) (c : Conn) : bool :=
  match allow with
  | None => true
  | Some policy => match policy c with
                   | (None, _) => true
                   | (Some _, _) => false
                   end
  end.

(** The connections [Accept] hands out before the loop sees the context
    done. *)
Fixpoint accepted (ticks : list tick) : list Conn :=
  match ticks with
  | [] => []
  | CtxDone _ :: _ => []
  | AcceptFails _ :: rest => accepted rest
  | AcceptGives c :: rest => c :: accepted rest
  end.

Definition listening (t : tick) : bool :=
  match t with CtxDone _ => false | _ => true end.

Fixpoint goroutines (tr : list loop_ev) : list (Conn * list ev * outcome) :=
  match tr with
  | [] => []
  | Spawned c evs o :: r => (c, evs, o) :: goroutines r
  | _ :: r => goroutines r
  end.

Fixpoint loop_calls (tr : list loop_ev) : list ev :=
  match tr with
  | [] => []
  | Did e :: r => e :: loop_calls r
  | _ :: r => loop_calls r
  end.

Fixpoint reports (tr : list loop_ev) : list error :=
  match tr with
  | [] => []
  | Reported e :: r => e :: reports r
  | _ :: r => reports r
  end.

Definition is_cleanup (e : ev) : bool :=
  match e with Cleanup _ => true | _ => false end.

(** Every cleanup call of a trace, by the loop or by a goroutine. *)
Fixpoint cleanups_run (tr : list loop_ev) : list ev :=
  match tr with
  | [] => []
  | Spawned _ evs _ :: r => filter is_cleanup evs ++ cleanups_run r
  | Did e :: r => filter is_cleanup [e] ++ cleanups_run r
  | _ :: r => cleanups_run r
  end.

(** The errors [Accept] returns before the loop sees the context done. *)
Fixpoint accept_errors (ticks : list tick) : list error :=
  match ticks with
  | [] => []
  | CtxDone _ :: _ => []
  | AcceptFails e :: rest => e :: accept_errors rest
  | AcceptGives _ :: rest => accept_errors rest
  end.

(** The first turn at which the loop sees the context done, if any. *)
Fixpoint cancelled_with (ticks : list tick) : option error :=
  match ticks with
  | [] => None
  | CtxDone e :: _ => Some e
  | _ :: rest => cancelled_with rest
  end.

Definition closes (evs : list ev) : list Conn :=
  flat_map (fun e => match e with Close c => [c] | _ => [] end) evs.

(** Every connection closed in a trace, by the loop or by a goroutine. *)
Fixpoint closed_conns (tr : list loop_ev) : list Conn :=
  match tr with
  | [] => []
  | Spawned _ evs _ :: r => closes evs ++ closed_conns r
  | Did e :: r => closes [e] ++ closed_conns r
  | _ :: r => closed_conns r
  end.

(** The connections the policy was asked about. *)
Fixpoint allowed (tr : list loop_ev) : list Conn :=
  match tr with
  | [] => []
  | Allowed c :: r => c :: allowed r
  | _ :: r => allowed r
  end.

(** The cleanup a connection is admitted with, if any. *)
Definition admitted_cleanup (allow : option allowFn) (c : Conn) : list ev :=
  match allow with
  | None => []
  | Some policy => match policy c with
                   | (None, Some k) => [Cleanup (cleanup_tag k)]
                   | _ => []
                   end
  end.

(** How many times the loop itself closes the listener. *)
Definition listener_closes (tr : list loop_ev) : nat :=
  count_occ ev_eq_dec (loop_calls tr) ListenerClose.

(** *** Dial *)

(** The caller's context: the instant its [Done()] closes, if ever, and
    what [ctx.Err()] is from then on. *)
Record context := { cancel_at : option Z; ctx_err : error }.

Definition ctx_is_done (x : context) (now : Z) : bool :=
  match cancel_at x with
  | Some t => (t <=? now)%Z
  | None => false
  end.

(** [context.WithTimeout(ctx, d)] made at [now]: the instant from which
    its [Done()] is closed (the deadline, or the parent's end if that
    comes first). *)
Definition timeout_done_at (x : context) (now d : Z) : Z :=
  match cancel_at x with
  | Some t => Z.min (now + d) t
  | None => (now + d)%Z
  end.

(** What the environment answers to one [DialContext]: the result, how
    long the call (and the error callback) took, and for a failure how
    late after [dialCtx.Done()] closes the receive wakes up. *)
Inductive dial_tick :=
  | DialFails (e : error) (took lag : Z)
  | DialConnects (c : Conn) (took : Z).

Inductive dial_ev :=
  | Attempt (n : Z) (t : Z)      (* DialContext begins: counter, clock *)
  | DialReported (e : error)     (* handleErr(err), when one was given *)
  | Woke (t : Z)                 (* <-dialCtx.Done() returned at t *)
  | DialDid (e : ev).            (* calls of the final closure *)

Inductive ended :=
  | Returned (e : option error)
  | Panicked.

(** func() (err error) { defer func() { err = conn.Close() }();
                         handle(conn); return }() *)
Definition handle_and_close (handle : handleFn) (c : Conn) : Body :=
  defer_ (DeferSetErrClose c) ;;
  call (Handle c) (handle c).

Definition dial_report (handleErr : bool) (e : error) : list dial_ev :=
  if handleErr then [DialReported e] else [].

(** The [for attempt := 1; ; attempt++] loop; [None]: still dialing. *)
Fixpoint dial_loop (x : context) (handle : handleFn) (handleErr : bool)
         (timeout : Z -> Z) (attempt now : Z) (ticks : list dial_tick)
  : list dial_ev * option ended :=
  if ctx_is_done x now
  then ([], Some (Returned (Some ("dialing " ++ ctx_err x)%string)))
  else
    match ticks with
    | [] => ([], None)
    | DialFails e took lag :: rest =>
        let closes := timeout_done_at x now (timeout attempt) in
        let woke := Z.max (now + took) (closes + lag) in
        let '(tr, r) := dial_loop x handle handleErr timeout
                                  (int_incr attempt) woke rest in
        (Attempt attempt now :: dial_report handleErr e ++ Woke woke :: tr, r)
    | DialConnects c took :: _ =>
        let '(evs, o, err) := run (handle_and_close handle c) in
        (Attempt attempt now :: map DialDid evs,
         Some (match o with Returns => Returned err | Panics => Panicked end))
    end.

(** if timeout == nil { timeout = func(int) time.Duration { return time.Second } } *)
Definition or_second (timeout : option (Z -> Z)) : Z -> Z :=
  match timeout with
  | Some f => f
  | None => fun _ => Second
  end.

Definition Dial (x : context) (handle : option handleFn) (handleErr : bool)
           (timeout : option (Z -> Z)) (start : Z) (ticks : list dial_tick)
  : list dial_ev * option ended :=
  match handle with
  | None => ([], Some (Returned (Some "nil handle function"%string)))
  | Some h =>
      dial_loop x h handleErr (or_second timeout) 1 start ticks
  end.

(** The attempts of a run, in order: counter and starting instant. *)
Fixpoint attempts (tr : list dial_ev) : list (Z * Z) :=
  match tr with
  | [] => []
  | Attempt n t :: r => (n, t) :: attempts r
  | _ :: r => attempts r
  end.

(** The calls made on the connection by a run. *)
Fixpoint dial_calls (tr : list dial_ev) : list ev :=
  match tr with
  | [] => []
  | DialDid e :: r => e :: dial_calls r
  | _ :: r => dial_calls r
  end.

(** f(1) + ... + f(n) *)
Fixpoint backoff_sum (f : Z -> Z) (n : nat) : Z :=
  match n with
  | O => 0
  | S k => (backoff_sum f k + f (Z.of_nat (S k)))%Z
  end.

(** f(a) + f(a+1) + ... + f(a+n-1) *)
Fixpoint range_sum (f : Z -> Z) (a : Z) (n : nat) : Z :=
  match n with
  | O => 0
  | S k => (f a + range_sum f (a + 1) k)%Z
  end.

(** The instants at which the receives from [dialCtx.Done()] return. *)
Fixpoint wakes (tr : list dial_ev) : list Z :=
  match tr with
  | [] => []
  | Woke t :: r => t :: wakes r
  | _ :: r => wakes r
  end.



(** The connection of the first answer that connects. *)
Fixpoint first_connection (ticks : list dial_tick) : option Conn :=
  match ticks with
  | [] => None
  | DialFails _ _ _ :: r => first_connection r
  | DialConnects c _ :: _ => Some c
  end.

(** No failing answer takes longer than [d], nor wakes later than [d]
    after the timeout closes. *)
Definition tick_within (d : Z) (t : dial_tick) : bool :=
  match t with
  | DialFails _ took lag => ((took <=? d) && (lag <=? d))%Z
  | DialConnects _ _ => true
  end.

Definition dial_fails (t : dial_tick) : bool :=
  match t with
  | DialFails _ _ _ => true
  | DialConnects _ _ => false
  end.

(** The clock does not run backwards. *)
Definition tick_sane (t : dial_tick) : bool :=
  match t with
  | DialFails _ took lag => ((0 <=? took) && (0 <=? lag))%Z
  | DialConnects _ took => (0 <=? took)%Z
  end.

End WithConnections.

End Tcp.

(** ** Package protocol, as far as package cast uses it *)
Module protocol.

(** Modelled from the spec: package protocol is not part of the sources at
    hand.  The spec describes a message as a versioned envelope that is
    tagged with a message kind and contains the body. *)
Inductive MessageVersion := V1.
Inductive MessageVariant := Ping | Pong | Cast | Multicast | Broadcast.

Record Message (Body : Type) := {
  Version : MessageVersion;
  Variant : MessageVariant;
  Body_ : Body
}.
Arguments Version {Body}.
Arguments Variant {Body}.
Arguments Body_ {Body}.

Definition NewMessage {Body : Type} (v : MessageVersion) (k : MessageVariant)
           (b : Body) : Message Body :=
  {| Version := v; Variant := k; Body_ := b |}.

End protocol.

(** ** Package cast *)
Module Cast.
Import Go.

Section Caster.

Context {PeerID PeerAddress NetAddr MessageBody Time : Type}.
Variable Equal : PeerID -> PeerID -> bool.       (* to.Equal(me) *)
Variable format : PeerID -> string.              (* the verb %v *)
Variable NetworkAddress : PeerAddress -> NetAddr.

Record MessageSend := {
  To : NetAddr;
  Message : protocol.Message MessageBody
}.

Record EventMessageReceived := {
  Time_ : Time;
  Message_ : MessageBody
}.

Record ErrCastingMessage := {
  err_text : error;        (* the embedded error *)
  PeerID_ : PeerID
}.

Definition newErrCastingMessage (peerID : PeerID) (err : error)
  : ErrCastingMessage :=
  {| err_text := ("error casting to peer=" ++ format peerID ++ ": " ++ err)%string;
     PeerID_ := peerID |}.

Record caster := {
  dht : PeerID -> option PeerAddress * option error;  (* dht.PeerAddress *)
  me : PeerID
}.

Inductive cast_ev :=
  | Lookup (to : PeerID)                 (* caster.dht.PeerAddress(to) *)
  | OfferSend (m : MessageSend)          (* select entered, offering m *)
  | Sent (m : MessageSend)               (* caster.messages took m *)
  | OfferEvent (e : EventMessageReceived)
  | Published (e : EventMessageReceived). (* caster.events took e *)

(** [None] as result: the call stays blocked in its [select]. *)
Definition Cast (c : caster) (ctx : select_env) (to : PeerID)
           (body : MessageBody)
  : list cast_ev * option (option ErrCastingMessage) :=
  match dht c to with
  | (_, Some err) =>
      ([Lookup to], Some (Some (newErrCastingMessage to err)))
  | (None, None) =>
      ([Lookup to],
       Some (Some (newErrCastingMessage to "nil peer address"%string)))
  | (Some peerAddr, None) =>
      let send := {| To := NetworkAddress peerAddr;
                     Message := protocol.NewMessage protocol.V1
                                                    protocol.Cast body |} in
      match select2 ctx with
      | Some (CaseDone e) =>
          ([Lookup to; OfferSend send],
           Some (Some (newErrCastingMessage to e)))
      | Some CaseSend =>
          ([Lookup to; OfferSend send; Sent send], Some None)
      | None => ([Lookup to; OfferSend send], None)
      end
  end.

Definition AcceptCast (c : caster) (ctx : select_env) (now : Time)
           (to : PeerID) (body : MessageBody)
  : list cast_ev * option (option ErrCastingMessage) :=
  if Equal to (me c) then
    let event := {| Time_ := now; Message_ := body |} in
    match select2 ctx with
    | Some (CaseDone e) =>
        ([OfferEvent event], Some (Some (newErrCastingMessage to e)))
    | Some CaseSend => ([OfferEvent event; Published event], Some None)
    | None => ([OfferEvent event], None)
    end
  else
    ([], Some (Some (newErrCastingMessage to
                       "no peer available for forwarding"%string))).

(** What reached the outbound sink, what reached the event sink, and how
    many times a handoff was attempted. *)
Fixpoint sent (tr : list cast_ev) : list MessageSend :=
  match tr with
  | [] => []
  | Sent m :: r => m :: sent r
  | _ :: r => sent r
  end.

Fixpoint published (tr : list cast_ev) : list EventMessageReceived :=
  match tr with
  | [] => []
  | Published e :: r => e :: published r
  | _ :: r => published r
  end.

Fixpoint handoffs (tr : list cast_ev) : nat :=
  match tr with
  | [] => 0
  | OfferSend _ :: r => S (handoffs r)
  | OfferEvent _ :: r => S (handoffs r)
  | _ :: r => handoffs r
  end.

End Caster.

End Cast.

(** * The listener *)
Module ListenFacts.
Import Go Tcp.

Section Listener.

Variable closeErr : Conn -> option error.
Variable handle : handleFn.
Variable handleErr : bool.

Lemma run_serve_open c :
  run closeErr (serve_open handle c) = ([Handle c; Close c], handle c, None).
Proof.
  unfold run, serve_open, seq, defer_, call; simpl.
  destruct (handle c); reflexivity.
Qed.

Lemma run_serve_admitted_plain c :
  run closeErr (serve_admitted handle c None)
  = ([Handle c; Close c], handle c, None).
Proof.
  unfold run, serve_admitted, seq, defer_, call; simpl.
  destruct (handle c); reflexivity.
Qed.

Lemma run_serve_admitted_cleanup c k :
  run closeErr (serve_admitted handle c (Some k))
  = ([Handle c; Cleanup (cleanup_tag k); Close c],
     match handle c, cleanup_ends k with
     | Returns, Returns => Returns
     | _, _ => Panics
     end,
     None).
Proof.
  unfold run, serve_admitted, seq, defer_, call; simpl.
  destruct (handle c), (cleanup_ends k); reflexivity.
Qed.

(** The goroutine of one turn of the loop, if the turn spawns one. *)
Lemma goroutines_serve allow c :
  goroutines (serve closeErr handle allow c)
  = if admits allow c
    then match allow with
         | Some policy =>
             match snd (policy c) with
             | Some k => [(c, [Handle c; Cleanup (cleanup_tag k); Close c],
                           match handle c, cleanup_ends k with
                           | Returns, Returns => Returns
                           | _, _ => Panics
                           end)]
             | None => [(c, [Handle c; Close c], handle c)]
             end
         | None => [(c, [Handle c; Close c], handle c)]
         end
    else [].
Proof.
  unfold serve, admits, spawn.
  destruct allow as [policy|].
  - destruct (policy c) as [[e|] [k|]]; cbn [snd]; try reflexivity.
    + now rewrite run_serve_admitted_cleanup.
    + now rewrite run_serve_admitted_plain.
  - now rewrite run_serve_open.
Qed.

Lemma loop_calls_serve allow c :
  loop_calls (serve closeErr handle allow c)
  = if admits allow c then [] else [Close c].
Proof.
  unfold serve, admits, spawn.
  destruct allow as [policy|].
  - destruct (policy c) as [[e|] k]; simpl; try reflexivity.
    now destruct (run closeErr (serve_admitted handle c k)) as [[? ?] ?].
  - now destruct (run closeErr (serve_open handle c)) as [[? ?] ?].
Qed.

Lemma goroutines_app a b : goroutines (a ++ b) = goroutines a ++ goroutines b.
Proof.
  induction a as [|[] a IH]; simpl; try rewrite IH; reflexivity.
Qed.

Lemma loop_calls_app a b : loop_calls (a ++ b) = loop_calls a ++ loop_calls b.
Proof.
  induction a as [|[] a IH]; simpl; try rewrite IH; reflexivity.
Qed.

Lemma cleanups_run_app a b :
  cleanups_run (a ++ b) = cleanups_run a ++ cleanups_run b.
Proof.
  induction a as [|[] a IH]; simpl; try rewrite IH;
    try rewrite app_assoc; reflexivity.
Qed.

Lemma goroutines_report e : goroutines (report handleErr e) = [].
Proof. unfold report; now destruct handleErr. Qed.

Lemma loop_calls_report e : loop_calls (report handleErr e) = [].
Proof. unfold report; now destruct handleErr. Qed.

(** The loop spawns one goroutine for each admitted connection, in the
    order of acceptance. *)
Lemma goroutines_accept_loop allow ticks :
  goroutines (fst (accept_loop closeErr handle handleErr allow ticks))
  = flat_map (fun c => goroutines (serve closeErr handle allow c))
             (accepted ticks).
Proof.
  induction ticks as [|[e|e|c] rest IH]; simpl; try reflexivity.
  - destruct (accept_loop closeErr handle handleErr allow rest) as [tr r].
    simpl in *. now rewrite goroutines_app, goroutines_report.
  - destruct (accept_loop closeErr handle handleErr allow rest) as [tr r].
    simpl in *. now rewrite goroutines_app, IH.
Qed.

Lemma loop_calls_accept_loop allow ticks :
  loop_calls (fst (accept_loop closeErr handle handleErr allow ticks))
  = flat_map (fun c => loop_calls (serve closeErr handle allow c))
             (accepted ticks).
Proof.
  induction ticks as [|[e|e|c] rest IH]; simpl; try reflexivity.
  - destruct (accept_loop closeErr handle handleErr allow rest) as [tr r].
    simpl in *. now rewrite loop_calls_app, loop_calls_report.
  - destruct (accept_loop closeErr handle handleErr allow rest) as [tr r].
    simpl in *. now rewrite loop_calls_app, IH.
Qed.

(** The deferred [listener.Close()] adds no goroutine. *)
Lemma goroutines_listen allow ticks :
  goroutines (fst (ListenWithListener closeErr (Some handle) handleErr allow ticks))
  = goroutines (fst (accept_loop closeErr handle handleErr allow ticks)).
Proof.
  unfold ListenWithListener.
  destruct (accept_loop closeErr handle handleErr allow ticks) as [tr [r|]];
    simpl; [|reflexivity].
  rewrite goroutines_app; simpl. apply app_nil_r.
Qed.

Lemma loop_calls_listen allow ticks :
  incl (loop_calls (fst (ListenWithListener closeErr (Some handle) handleErr allow ticks)))
       (ListenerClose
          :: loop_calls (fst (accept_loop closeErr handle handleErr allow ticks))).
Proof.
  unfold ListenWithListener.
  destruct (accept_loop closeErr handle handleErr allow ticks) as [tr [r|]];
    simpl.
  - rewrite loop_calls_app; simpl. intros e H.
    apply in_app_or in H. destruct H as [H|[H|[]]];
      [right; exact H | left; exact H].
  - apply incl_tl, incl_refl.
Qed.

(** As long as the context is not done, the loop on [pre ++ post] does
    what it does on [pre] and then what it does on [post]. *)
Lemma accept_loop_app allow pre post :
  forallb listening pre = true ->
  accept_loop closeErr handle handleErr allow (pre ++ post)
  = (fst (accept_loop closeErr handle handleErr allow pre)
       ++ fst (accept_loop closeErr handle handleErr allow post),
     snd (accept_loop closeErr handle handleErr allow post)).
Proof.
  induction pre as [|[e|e|c] pre IH]; simpl; intros H.
  - now destruct (accept_loop closeErr handle handleErr allow post).
  - discriminate.
  - rewrite (IH H).
    destruct (accept_loop closeErr handle handleErr allow pre) as [tr r].
    simpl. now rewrite app_assoc.
  - rewrite (IH H).
    destruct (accept_loop closeErr handle handleErr allow pre) as [tr r].
    simpl. now rewrite <- app_assoc.
Qed.

Lemma listen_app allow pre post :
  forallb listening pre = true ->
  ListenWithListener closeErr (Some handle) handleErr allow (pre ++ post)
  = (fst (accept_loop closeErr handle handleErr allow pre)
       ++ fst (ListenWithListener closeErr (Some handle) handleErr allow post),
     snd (ListenWithListener closeErr (Some handle) handleErr allow post)).
Proof.
  intros H. unfold ListenWithListener. rewrite (accept_loop_app allow _ _ H).
  destruct (accept_loop closeErr handle handleErr allow post) as [tr [r|]];
    simpl; [now rewrite app_assoc | reflexivity].
Qed.

(** The turn of a rejected connection. *)
Lemma rejected_turn (policy : allowFn) c e k rest :
  policy c = (Some e, k) ->
  ListenWithListener closeErr (Some handle) handleErr (Some policy)
                     (AcceptGives c :: rest)
  = ([Accepted c; Allowed c; Did (Close c)]
       ++ fst (ListenWithListener closeErr (Some handle) handleErr (Some policy) rest),
     snd (ListenWithListener closeErr (Some handle) handleErr (Some policy) rest)).
Proof.
  intros Hp. unfold ListenWithListener. simpl accept_loop.
  unfold serve. rewrite Hp.
  destruct (accept_loop closeErr handle handleErr (Some policy) rest)
    as [tr [r|]]; reflexivity.
Qed.

Lemma reports_app a b : reports (a ++ b) = reports a ++ reports b.
Proof.
  induction a as [|[] a IH]; simpl; try rewrite IH; reflexivity.
Qed.

(** A goroutine found in the trace is the one spawned by the turn of
    its own connection. *)
Lemma spawned_by_turn allow ticks c evs o :
  In (c, evs, o)
     (goroutines (fst (ListenWithListener closeErr (Some handle) handleErr allow ticks))) ->
  In c (accepted ticks)
  /\ goroutines (serve closeErr handle allow c) = [(c, evs, o)].
Proof.
  rewrite goroutines_listen, goroutines_accept_loop.
  intros H. apply in_flat_map in H. destruct H as [c' [Hacc Hin]].
  rewrite goroutines_serve in Hin.
  assert (c' = c) as ->.
  { destruct (admits allow c'); [|contradiction].
    destruct allow as [policy|];
      [destruct (snd (policy c'))|];
      destruct Hin as [Heq|[]]; now inversion Heq. }
  split; [exact Hacc|].
  rewrite goroutines_serve.
  destruct (admits allow c); [|contradiction].
  destruct allow as [policy|];
    [destruct (snd (policy c))|];
    destruct Hin as [Heq|[]]; now rewrite Heq.
Qed.

Lemma turn_spawns allow ticks c g :
  In c (accepted ticks) ->
  In g (goroutines (serve closeErr handle allow c)) ->
  In g (goroutines (fst (ListenWithListener closeErr (Some handle) handleErr allow ticks))).
Proof.
  intros Hacc Hin.
  rewrite goroutines_listen, goroutines_accept_loop.
  apply in_flat_map. now exists c.
Qed.

Lemma goroutine_conns allow l :
  map (fun g => fst (fst g))
      (flat_map (fun c => goroutines (serve closeErr handle allow c)) l)
  = filter (admits allow) l.
Proof.
  induction l as [|c l IH]; simpl; [reflexivity|].
  rewrite map_app, IH, goroutines_serve.
  destruct (admits allow c); [|reflexivity].
  destruct allow as [policy|]; [destruct (snd (policy c))|]; reflexivity.
Qed.

End Listener.

Ltac ev_cases :=
  repeat match goal with
         | |- context [ev_eq_dec ?a ?b] =>
             destruct (ev_eq_dec a b); try congruence; try discriminate
         end.

Lemma plain_goroutine_shape c :
  occurrences (Handle c) [Handle c; Close c] = 1
  /\ occurrences (Close c) [Handle c; Close c] = 1
  /\ before (Handle c) (Close c) [Handle c; Close c].
Proof.
  unfold occurrences, before; cbn [count_occ position].
  ev_cases. cbn [option_map]. repeat split; lia.
Qed.

Lemma cleanup_goroutine_shape c t :
  let evs := [Handle c; Cleanup t; Close c] in
  occurrences (Handle c) evs = 1
  /\ occurrences (Close c) evs = 1
  /\ occurrences (Cleanup t) evs = 1
  /\ before (Handle c) (Close c) evs
  /\ before (Handle c) (Cleanup t) evs
  /\ before (Cleanup t) (Close c) evs.
Proof.
  unfold occurrences, before; cbn [count_occ position].
  ev_cases. cbn [option_map]. repeat split; lia.
Qed.

(** C2: the listener starts one goroutine for each connection it admits
    (no policy, or a policy that returns a nil error), in the order of
    acceptance; that goroutine calls [handle] on the connection once and
    [Close] on it once, the [Close] after the [handle], whether [handle]
    returns or panics; the loop itself never calls [handle] and never
    closes an admitted connection. *)
Theorem listener_handle_once_then_close
        (closeErr : Conn -> option error) (handle : handleFn)
        (handleErr : bool) (allow : option allowFn) (ticks : list tick) :
  map (fun g => fst (fst g))
      (goroutines (fst (ListenWithListener closeErr (Some handle) handleErr allow ticks)))
  = filter (admits allow) (accepted ticks)
  /\ (forall c evs o,
        In (c, evs, o)
           (goroutines (fst (ListenWithListener closeErr (Some handle) handleErr allow ticks))) ->
        occurrences (Handle c) evs = 1
        /\ occurrences (Close c) evs = 1
        /\ before (Handle c) (Close c) evs)
  /\ (forall c,
        ~ In (Handle c)
             (loop_calls (fst (ListenWithListener closeErr (Some handle) handleErr allow ticks))))
  /\ (forall c,
        admits allow c = true ->
        ~ In (Close c)
             (loop_calls (fst (ListenWithListener closeErr (Some handle) handleErr allow ticks)))).
Proof.
  assert (Hcalls : forall e,
             In e (loop_calls (fst (ListenWithListener closeErr (Some handle) handleErr allow ticks))) ->
             e = ListenerClose
             \/ exists c, admits allow c = false /\ e = Close c).
  { intros e He. apply loop_calls_listen in He. destruct He as [He|He].
    - now left.
    - right. rewrite loop_calls_accept_loop in He.
      apply in_flat_map in He. destruct He as [c [_ Hin]].
      rewrite loop_calls_serve in Hin. exists c.
      destruct (admits allow c); [contradiction|].
      destruct Hin as [Hin|[]]. now split. }
  split; [|split; [|split]].
  - rewrite goroutines_listen, goroutines_accept_loop. apply goroutine_conns.
  - intros c evs o Hin. apply spawned_by_turn in Hin. destruct Hin as [_ Hg].
    rewrite goroutines_serve in Hg.
    destruct (admits allow c); [|discriminate].
    destruct allow as [policy|]; [destruct (snd (policy c)) as [k|]|];
      inversion Hg; subst.
    + pose proof (cleanup_goroutine_shape c (cleanup_tag k)) as H.
      cbv zeta in H. tauto.
    + apply plain_goroutine_shape.
    + apply plain_goroutine_shape.
  - intros c Hin. apply Hcalls in Hin.
    destruct Hin as [Hin|[c' [_ Hin]]]; discriminate.
  - intros c Hadm Hin. apply Hcalls in Hin.
    destruct Hin as [Hin|[c' [Hrej Hin]]]; [discriminate|].
    inversion Hin; subst. congruence.
Qed.

(** C2 on a run: two connections, no policy, the second handler panics. *)
Lemma listener_handle_once_then_close_witness :
  goroutines
    (fst (ListenWithListener (fun _ => None)
            (Some (fun c => if Nat.eqb c 2 then Panics else Returns))
            true None [AcceptGives 1; AcceptFails "reset"%string; AcceptGives 2]))
  = [(1, [Handle 1; Close 1], Returns); (2, [Handle 2; Close 2], Panics)]
  /\ (occurrences (Handle 2) [Handle 2; Close 2] = 1
      /\ occurrences (Close 2) [Handle 2; Close 2] = 1
      /\ before (Handle 2) (Close 2) [Handle 2; Close 2]).
Proof.
  split; [reflexivity|].
  apply (proj1 (proj2 (listener_handle_once_then_close
                         (fun _ => None)
                         (fun c => if Nat.eqb c 2 then Panics else Returns)
                         true None
                         [AcceptGives 1; AcceptFails "reset"%string; AcceptGives 2]))
               2 [Handle 2; Close 2] Panics).
  right; left; reflexivity.
Defined.

(** C1, as claimed, fails: on one admitted connection whose policy
    returns a cleanup, the goroutine calls the cleanup before it closes
    the connection, not after. *)
Lemma cleanup_after_close_refuted :
  ~ (forall evs o,
        In (0, evs, o)
           (goroutines
              (fst (ListenWithListener (fun _ => None) (Some (fun _ => Returns)) false
                      (Some (fun _ => (None, Some {| cleanup_tag := 7;
                                                     cleanup_ends := Returns |})))
                      [AcceptGives 0]))) ->
        before (Close 0) (Cleanup 7) evs).
Proof.
  intros H.
  specialize (H [Handle 0; Cleanup 7; Close 0] Returns (or_introl eq_refl)).
  unfold before in H; simpl in H. lia.
Qed.

(** C1, amended: for a connection that the policy admits with a cleanup
    and that the listener accepts, there is a goroutine, and in it the
    cleanup runs exactly once, after [handle] and before [Close], whether
    [handle] returns or panics. *)
Theorem admission_cleanup_once_before_close
        (closeErr : Conn -> option error) (handle : handleFn)
        (handleErr : bool) (policy : allowFn) (ticks : list tick)
        (c : Conn) (k : cleanupFn) :
  policy c = (None, Some k) ->
  In c (accepted ticks) ->
  (exists evs o,
      In (c, evs, o)
         (goroutines (fst (ListenWithListener closeErr (Some handle) handleErr
                             (Some policy) ticks))))
  /\ (forall evs o,
        In (c, evs, o)
           (goroutines (fst (ListenWithListener closeErr (Some handle) handleErr
                               (Some policy) ticks))) ->
        occurrences (Cleanup (cleanup_tag k)) evs = 1
        /\ before (Handle c) (Cleanup (cleanup_tag k)) evs
        /\ before (Cleanup (cleanup_tag k)) (Close c) evs
        /\ occurrences (Close c) evs = 1).
Proof.
  intros Hp Hacc.
  assert (Hg : goroutines (serve closeErr handle (Some policy) c)
               = [(c, [Handle c; Cleanup (cleanup_tag k); Close c],
                   match handle c, cleanup_ends k with
                   | Returns, Returns => Returns
                   | _, _ => Panics
                   end)]).
  { rewrite goroutines_serve. unfold admits. now rewrite Hp. }
  split.
  - eexists; eexists. eapply turn_spawns; [exact Hacc|].
    rewrite Hg. left; reflexivity.
  - intros evs o Hin. apply spawned_by_turn in Hin. destruct Hin as [_ Hin].
    rewrite Hg in Hin. inversion Hin; subst.
    pose proof (cleanup_goroutine_shape c (cleanup_tag k)) as H.
    cbv zeta in H. tauto.
Qed.

Lemma admission_cleanup_once_before_close_witness :
  occurrences (Cleanup 7) [Handle 0; Cleanup 7; Close 0] = 1
  /\ before (Handle 0) (Cleanup 7) [Handle 0; Cleanup 7; Close 0]
  /\ before (Cleanup 7) (Close 0) [Handle 0; Cleanup 7; Close 0]
  /\ occurrences (Close 0) [Handle 0; Cleanup 7; Close 0] = 1.
Proof.
  apply (proj2 (admission_cleanup_once_before_close
                  (fun _ => None) (fun _ => Panics) false
                  (fun _ => (None, Some {| cleanup_tag := 7;
                                           cleanup_ends := Returns |}))
                  [AcceptGives 0] 0
                  {| cleanup_tag := 7; cleanup_ends := Returns |}
                  eq_refl (or_introl eq_refl))
               [Handle 0; Cleanup 7; Close 0] Panics).
  left; reflexivity.
Defined.

(** C3: when the policy returns an error for an accepted connection, that
    turn of the loop is: accept, evaluate the policy, close the
    connection; then the loop goes on as it would from the next turn.  No
    goroutine is ever started for the connection, so [handle] is not
    called on it; nothing is passed to [handleErr]; and what the call
    returns is what it returns on the remaining turns alone. *)
Theorem rejected_connection_closed_unhandled
        (closeErr : Conn -> option error) (handle : handleFn)
        (handleErr : bool) (policy : allowFn) (pre post : list tick)
        (c : Conn) (e : error) (k : option cleanupFn) :
  policy c = (Some e, k) ->
  forallb listening pre = true ->
  fst (ListenWithListener closeErr (Some handle) handleErr (Some policy)
                          (pre ++ AcceptGives c :: post))
  = fst (accept_loop closeErr handle handleErr (Some policy) pre)
      ++ [Accepted c; Allowed c; Did (Close c)]
      ++ fst (ListenWithListener closeErr (Some handle) handleErr (Some policy) post)
  /\ snd (ListenWithListener closeErr (Some handle) handleErr (Some policy)
                             (pre ++ AcceptGives c :: post))
     = snd (ListenWithListener closeErr (Some handle) handleErr (Some policy) post)
  /\ reports (fst (ListenWithListener closeErr (Some handle) handleErr (Some policy)
                                      (pre ++ AcceptGives c :: post)))
     = reports (fst (accept_loop closeErr handle handleErr (Some policy) pre))
         ++ reports (fst (ListenWithListener closeErr (Some handle) handleErr
                                             (Some policy) post))
  /\ (forall evs o,
        ~ In (c, evs, o)
             (goroutines (fst (ListenWithListener closeErr (Some handle) handleErr
                                 (Some policy) (pre ++ AcceptGives c :: post))))).
Proof.
  intros Hp Hpre.
  rewrite (listen_app closeErr handle handleErr (Some policy) pre _ Hpre).
  rewrite (rejected_turn closeErr handle handleErr policy c e k post Hp).
  cbn [fst snd].
  split; [reflexivity|]. split; [reflexivity|]. split.
  - rewrite !reports_app. reflexivity.
  - intros evs o Hin.
    assert (Hin' : In (c, evs, o)
                      (goroutines (fst (ListenWithListener closeErr (Some handle)
                                          handleErr (Some policy)
                                          (pre ++ AcceptGives c :: post))))).
    { rewrite (listen_app closeErr handle handleErr (Some policy) pre _ Hpre).
      rewrite (rejected_turn closeErr handle handleErr policy c e k post Hp).
      exact Hin. }
    apply spawned_by_turn in Hin'. destruct Hin' as [_ Hg].
    rewrite goroutines_serve in Hg. unfold admits in Hg. rewrite Hp in Hg.
    discriminate.
Qed.

Lemma rejected_connection_closed_unhandled_witness :
  ListenWithListener (fun _ => None) (Some (fun _ => Returns)) true
    (Some (fun c => if Nat.eqb c 5 then (Some "full"%string, None) else (None, None)))
    [AcceptGives 4; AcceptGives 5; AcceptGives 6; CtxDone "context canceled"%string]
  = ([Accepted 4; Allowed 4; Spawned 4 [Handle 4; Close 4] Returns;
      Accepted 5; Allowed 5; Did (Close 5);
      Accepted 6; Allowed 6; Spawned 6 [Handle 6; Close 6] Returns;
      Did ListenerClose],
     Some (Some "context canceled"%string)).
Proof.
  pose proof (rejected_connection_closed_unhandled
                (fun _ => None) (fun _ => Returns) true
                (fun c => if Nat.eqb c 5 then (Some "full"%string, None)
                          else (None, None))
                [AcceptGives 4]
                [AcceptGives 6; CtxDone "context canceled"%string]
                5 "full"%string None eq_refl eq_refl) as [Htr [Hret _]].
  apply injective_projections; [exact Htr | exact Hret].
Defined.

(** C9: when the policy returns an error together with a cleanup, the
    turn of that connection calls no cleanup: the cleanup calls of the
    whole run are those of the turns before and of the turns after. *)
Theorem rejected_cleanup_never_runs
        (closeErr : Conn -> option error) (handle : handleFn)
        (handleErr : bool) (policy : allowFn) (pre post : list tick)
        (c : Conn) (e : error) (k : cleanupFn) :
  policy c = (Some e, Some k) ->
  forallb listening pre = true ->
  serve closeErr handle (Some policy) c = [Allowed c; Did (Close c)]
  /\ cleanups_run (serve closeErr handle (Some policy) c) = []
  /\ cleanups_run (fst (ListenWithListener closeErr (Some handle) handleErr (Some policy)
                                           (pre ++ AcceptGives c :: post)))
     = cleanups_run (fst (accept_loop closeErr handle handleErr (Some policy) pre))
         ++ cleanups_run (fst (ListenWithListener closeErr (Some handle) handleErr
                                                  (Some policy) post)).
Proof.
  intros Hp Hpre.
  assert (Hs : serve closeErr handle (Some policy) c = [Allowed c; Did (Close c)]).
  { unfold serve. now rewrite Hp. }
  split; [exact Hs|]. split; [now rewrite Hs|].
  rewrite (listen_app closeErr handle handleErr (Some policy) pre _ Hpre).
  rewrite (rejected_turn closeErr handle handleErr policy c e (Some k) post Hp).
  cbn [fst]. rewrite !cleanups_run_app. reflexivity.
Qed.

Lemma rejected_cleanup_never_runs_witness :
  cleanups_run
    (fst (ListenWithListener (fun _ => None) (Some (fun _ => Returns)) false
            (Some (fun c => if Nat.eqb c 5
                            then (Some "full"%string,
                                  Some {| cleanup_tag := 50; cleanup_ends := Returns |})
                            else (None,
                                  Some {| cleanup_tag := c; cleanup_ends := Returns |})))
            ([AcceptGives 4] ++ AcceptGives 5 :: [AcceptGives 6])))
  = [Cleanup 4] ++ [Cleanup 6].
Proof.
  exact (proj2 (proj2 (rejected_cleanup_never_runs
                         (fun _ => None) (fun _ => Returns) false
                         (fun c => if Nat.eqb c 5
                                   then (Some "full"%string,
                                         Some {| cleanup_tag := 50;
                                                 cleanup_ends := Returns |})
                                   else (None,
                                         Some {| cleanup_tag := c;
                                                 cleanup_ends := Returns |}))
                         [AcceptGives 4] [AcceptGives 6] 5 "full"%string
                         {| cleanup_tag := 50; cleanup_ends := Returns |}
                         eq_refl eq_refl))).
Defined.

(** C10: with a nil [handle] the call returns the error "nil handle
    function" at once, whatever the listener would have answered: no
    [Accept], and no [listener.Close()].  With a [handle], a call that
    returns has closed the listener as its last act. *)
Theorem nil_handle_leaves_listener_open
        (closeErr : Conn -> option error) (handleErr : bool)
        (allow : option allowFn) (ticks : list tick) :
  ListenWithListener closeErr None handleErr allow ticks
  = ([], Some (Some "nil handle function"%string))
  /\ ~ In (Did ListenerClose)
          (fst (ListenWithListener closeErr None handleErr allow ticks))
  /\ (forall handle r,
        snd (ListenWithListener closeErr (Some handle) handleErr allow ticks) = Some r ->
        exists tr,
          fst (ListenWithListener closeErr (Some handle) handleErr allow ticks)
          = tr ++ [Did ListenerClose]).
Proof.
  split; [reflexivity|]. split; [intros []|].
  intros handle r. unfold ListenWithListener.
  destruct (accept_loop closeErr handle handleErr allow ticks) as [tr [r'|]];
    cbn [fst snd]; intros H; [now exists tr | discriminate].
Qed.

End ListenFacts.

(** * The dialer *)
Module DialFacts.
Import Go Tcp.

Local Open Scope Z_scope.

Lemma int_incr_small a : int_min <= a < int_max -> int_incr a = a + 1.
Proof.
  unfold int_incr, wrap_int, int_min, int_max. intros H.
  rewrite Z.mod_small by lia. lia.
Qed.

Lemma range_sum_snoc f n : forall a,
  range_sum f a (S n) = range_sum f a n + f (a + Z.of_nat n).
Proof.
  induction n as [|n IH]; intros a.
  - simpl. replace (a + 0) with a by lia. lia.
  - change (range_sum f a (S (S n))) with (f a + range_sum f (a + 1) (S n)).
    rewrite IH. cbn [range_sum].
    replace (a + 1 + Z.of_nat n) with (a + Z.of_nat (S n)) by lia. lia.
Qed.

Lemma backoff_sum_range f n : backoff_sum f n = range_sum f 1 n.
Proof.
  induction n as [|n IH]; [reflexivity|].
  rewrite range_sum_snoc. cbn [backoff_sum]. rewrite IH.
  now replace (1 + Z.of_nat n) with (Z.of_nat (S n)) by lia.
Qed.

Section Dialer.

Variable closeErr : Conn -> option error.
Variable x : context.
Variable handle : handleFn.
Variable handleErr : bool.
Variable f : Z -> Z.

Local Abbreviation loop := (dial_loop closeErr x handle handleErr f).

Lemma dial_loop_done a now ticks :
  ctx_is_done x now = true ->
  loop a now ticks
  = ([], Some (Returned (Some ("dialing " ++ ctx_err x)%string))).
Proof. intros H. destruct ticks; simpl; now rewrite H. Qed.

Lemma dial_loop_fails a now e took lag rest :
  ctx_is_done x now = false ->
  loop a now (DialFails e took lag :: rest)
  = (Attempt a now
       :: dial_report handleErr e
       ++ Woke (Z.max (now + took) (timeout_done_at x now (f a) + lag))
       :: fst (loop (int_incr a)
                    (Z.max (now + took) (timeout_done_at x now (f a) + lag))
                    rest),
     snd (loop (int_incr a)
               (Z.max (now + took) (timeout_done_at x now (f a) + lag))
               rest)).
Proof.
  intros H. cbn [dial_loop]. rewrite H.
  now destruct (loop (int_incr a) _ rest).
Qed.

Lemma dial_loop_connects a now c took rest :
  ctx_is_done x now = false ->
  loop a now (DialConnects c took :: rest)
  = ([Attempt a now; DialDid (Handle c); DialDid (Close c)],
     Some (match handle c with
           | Returns => Returned (closeErr c)
           | Panics => Panicked
           end)).
Proof.
  intros H. cbn [dial_loop]. rewrite H.
  unfold run, handle_and_close, seq, defer_, call; simpl.
  destruct (handle c); reflexivity.
Qed.

Lemma attempts_report e l : attempts (dial_report handleErr e ++ l) = attempts l.
Proof. unfold dial_report; now destruct handleErr. Qed.

Lemma dial_calls_report e l :
  dial_calls (dial_report handleErr e ++ l) = dial_calls l.
Proof. unfold dial_report; now destruct handleErr. Qed.

(** A receive from [dialCtx.Done()] that returns while the caller's
    context is still open has waited for the whole timeout. *)
Lemma woke_after_timeout now d took lag :
  0 <= took -> 0 <= lag ->
  ctx_is_done x (Z.max (now + took) (timeout_done_at x now d + lag)) = false ->
  now + d <= Z.max (now + took) (timeout_done_at x now d + lag).
Proof.
  unfold ctx_is_done, timeout_done_at. intros Ht Hl.
  destruct (cancel_at x) as [tc|]; [|lia].
  intros H. apply Z.leb_gt in H. lia.
Qed.

Lemma first_attempt a now ticks n t :
  nth_error (attempts (fst (loop a now ticks))) 0 = Some (n, t) ->
  n = a /\ t = now /\ ctx_is_done x now = false.
Proof.
  destruct (ctx_is_done x now) eqn:Hd.
  - rewrite dial_loop_done by exact Hd. discriminate.
  - destruct ticks as [|[e took lag|c took] rest].
    + simpl. rewrite Hd. discriminate.
    + rewrite dial_loop_fails by exact Hd. cbn [fst attempts nth_error].
      intros H; inversion H; auto.
    + rewrite dial_loop_connects by exact Hd. cbn [fst attempts nth_error].
      intros H; inversion H; auto.
Qed.

(** Attempt number and starting instant of each attempt, as long as the
    counter has not wrapped around. *)
Lemma dial_loop_spacing ticks : forall a now N n t,
  forallb dial_fails ticks = true ->
  forallb tick_sane ticks = true ->
  1 <= a -> a + Z.of_nat N <= int_max ->
  nth_error (attempts (fst (loop a now ticks))) N = Some (n, t) ->
  n = a + Z.of_nat N /\ now + range_sum f a N <= t.
Proof.
  induction ticks as [|[e took lag|c took] rest IH];
    intros a now N n t Hf Hs Ha Hmax Hn.
  - destruct (ctx_is_done x now) eqn:Hd.
    + rewrite dial_loop_done in Hn by exact Hd. now destruct N.
    + simpl in Hn. rewrite Hd in Hn. now destruct N.
  - destruct (ctx_is_done x now) eqn:Hd.
    + rewrite dial_loop_done in Hn by exact Hd. now destruct N.
    + rewrite dial_loop_fails in Hn by exact Hd.
      cbn [fst attempts] in Hn. rewrite attempts_report in Hn.
      cbn [attempts] in Hn.
      cbn [forallb dial_fails tick_sane] in Hf, Hs.
      apply andb_prop in Hs. destruct Hs as [Hs0 Hs].
      apply andb_prop in Hs0. destruct Hs0 as [Htook Hlag].
      apply Z.leb_le in Htook, Hlag.
      destruct N as [|N].
      * inversion Hn; subst. simpl. lia.
      * cbn [nth_error] in Hn.
        assert (Hw : ctx_is_done x (Z.max (now + took)
                                          (timeout_done_at x now (f a) + lag)) = false).
        { destruct (ctx_is_done x (Z.max (now + took)
                                         (timeout_done_at x now (f a) + lag))) eqn:Hd';
            [|reflexivity].
          rewrite dial_loop_done in Hn by exact Hd'. now destruct N. }
        pose proof (woke_after_timeout now (f a) took lag Htook Hlag Hw) as Hwait.
        rewrite int_incr_small in Hn by (unfold int_min; lia).
        apply IH in Hn; [|exact Hf|exact Hs|lia|lia].
        destruct Hn as [-> Hn]. cbn [range_sum]. split; lia.
  - discriminate.
Qed.

Lemma dial_loop_consecutive ticks : forall a now N n t n' t',
  forallb dial_fails ticks = true ->
  forallb tick_sane ticks = true ->
  1 <= a -> a + Z.of_nat (S N) <= int_max ->
  nth_error (attempts (fst (loop a now ticks))) N = Some (n, t) ->
  nth_error (attempts (fst (loop a now ticks))) (S N) = Some (n', t') ->
  t + f n <= t'.
Proof.
  induction ticks as [|[e took lag|c took] rest IH];
    intros a now N n t n' t' Hf Hs Ha Hmax Hn Hn'.
  - destruct (ctx_is_done x now) eqn:Hd.
    + rewrite dial_loop_done in Hn by exact Hd. now destruct N.
    + simpl in Hn. rewrite Hd in Hn. now destruct N.
  - destruct (ctx_is_done x now) eqn:Hd.
    + rewrite dial_loop_done in Hn by exact Hd. now destruct N.
    + rewrite dial_loop_fails in Hn, Hn' by exact Hd.
      cbn [fst attempts] in Hn, Hn'. rewrite attempts_report in Hn, Hn'.
      cbn [attempts] in Hn, Hn'.
      cbn [forallb dial_fails tick_sane] in Hf, Hs.
      apply andb_prop in Hs. destruct Hs as [Hs0 Hs].
      apply andb_prop in Hs0. destruct Hs0 as [Htook Hlag].
      apply Z.leb_le in Htook, Hlag.
      cbn [nth_error] in Hn'.
      destruct N as [|N].
      * inversion Hn; subst.
        apply first_attempt in Hn'. destruct Hn' as [_ [-> Hw]].
        now apply woke_after_timeout.
      * cbn [nth_error] in Hn.
        rewrite int_incr_small in Hn, Hn' by (unfold int_min; lia).
        eapply IH; [exact Hf|exact Hs| | |exact Hn|exact Hn']; lia.
  - discriminate.
Qed.

(** A dialer whose context is never done makes every attempt. *)
Lemma dial_loop_keeps_trying ticks : forall a now,
  cancel_at x = None ->
  forallb dial_fails ticks = true ->
  List.length (attempts (fst (loop a now ticks))) = List.length ticks
  /\ snd (loop a now ticks) = None.
Proof.
  induction ticks as [|[e took lag|c took] rest IH]; intros a now Hc Hf.
  - simpl. unfold ctx_is_done. rewrite Hc. now split.
  - rewrite dial_loop_fails by (unfold ctx_is_done; now rewrite Hc).
    cbn [fst snd attempts]. rewrite attempts_report. cbn [attempts List.length].
    cbn [forallb dial_fails] in Hf.
    destruct (IH (int_incr a)
                 (Z.max (now + took) (timeout_done_at x now (f a) + lag))
                 Hc Hf) as [-> ->].
    now split.
  - discriminate.
Qed.

(** The run up to and including the attempt that connects. *)
Lemma dial_loop_until_connected fails c took rest : forall a now,
  forallb dial_fails fails = true ->
  List.length (attempts (fst (loop a now (fails ++ DialConnects c took :: rest))))
  = S (List.length fails) ->
  dial_calls (fst (loop a now (fails ++ DialConnects c took :: rest)))
  = [Handle c; Close c]
  /\ snd (loop a now (fails ++ DialConnects c took :: rest))
     = Some (match handle c with
             | Returns => Returned (closeErr c)
             | Panics => Panicked
             end).
Proof.
  induction fails as [|[e took' lag|c' took'] fails IH]; intros a now Hf Hlen.
  - cbn [app] in *. destruct (ctx_is_done x now) eqn:Hd.
    + rewrite dial_loop_done in Hlen by exact Hd. discriminate.
    + rewrite dial_loop_connects by exact Hd. now split.
  - cbn [app] in *. destruct (ctx_is_done x now) eqn:Hd.
    + rewrite dial_loop_done in Hlen by exact Hd. discriminate.
    + rewrite dial_loop_fails in * by exact Hd.
      cbn [fst snd attempts dial_calls] in *.
      rewrite attempts_report in Hlen. rewrite dial_calls_report.
      cbn [attempts dial_calls List.length] in *.
      apply IH; [exact Hf | now injection Hlen].
  - discriminate.
Qed.

Lemma dial_loop_reaches_connection fails c took rest : forall a now,
  cancel_at x = None ->
  forallb dial_fails fails = true ->
  List.length (attempts (fst (loop a now (fails ++ DialConnects c took :: rest))))
  = S (List.length fails).
Proof.
  induction fails as [|[e took' lag|c' took'] fails IH]; intros a now Hc Hf.
  - cbn [app]. rewrite dial_loop_connects by (unfold ctx_is_done; now rewrite Hc).
    reflexivity.
  - cbn [app]. rewrite dial_loop_fails by (unfold ctx_is_done; now rewrite Hc).
    cbn [fst attempts]. rewrite attempts_report. cbn [attempts List.length].
    f_equal. now apply IH.
  - discriminate.
Qed.

(** Nothing the environment holds in store after a connection is looked
    at. *)
Lemma dial_loop_stops_at_connection fails c took rest : forall a now,
  forallb dial_fails fails = true ->
  loop a now (fails ++ DialConnects c took :: rest)
  = loop a now (fails ++ [DialConnects c took]).
Proof.
  induction fails as [|[e took' lag|c' took'] fails IH]; intros a now Hf.
  - reflexivity.
  - cbn [app]. destruct (ctx_is_done x now) eqn:Hd.
    + now rewrite !dial_loop_done by exact Hd.
    + rewrite !dial_loop_fails by exact Hd. now rewrite IH.
  - discriminate.
Qed.

End Dialer.

(** C7: against a target that never accepts, the attempts of [Dial] are
    made one after the other and numbered 1, 2, 3, ...; attempt N+1 begins
    no sooner than f(1) + ... + f(N) after the call began, and the attempt
    after attempt n begins no sooner than f(n) after attempt n began (f the
    backoff, one second when none is given; the clock does not run
    backwards; [N] counts the attempts made before). *)
Theorem dial_retry_spacing
        (closeErr : Conn -> option error) (x : context) (handle : handleFn)
        (handleErr : bool) (timeout : option (Z -> Z)) (start : Z)
        (ticks : list dial_tick) (N : nat) (n t : Z) :
  forallb dial_fails ticks = true ->
  forallb tick_sane ticks = true ->
  Z.of_nat N + 2 <= int_max ->
  nth_error (attempts (fst (Dial closeErr x (Some handle) handleErr timeout start ticks))) N
  = Some (n, t) ->
  n = Z.of_nat N + 1
  /\ start + backoff_sum (or_second timeout) N <= t
  /\ (forall n' t',
        nth_error (attempts (fst (Dial closeErr x (Some handle) handleErr timeout
                                       start ticks))) (S N)
        = Some (n', t') ->
        n' = n + 1 /\ t + or_second timeout n <= t').
Proof.
  unfold Dial. intros Hf Hs Hmax Hn.
  pose proof (dial_loop_spacing closeErr x handle handleErr (or_second timeout)
                ticks 1 start N n t Hf Hs ltac:(lia) ltac:(lia) Hn) as [En Et].
  rewrite backoff_sum_range. split; [lia|]. split; [exact Et|].
  intros n' t' Hn'.
  pose proof (dial_loop_spacing closeErr x handle handleErr (or_second timeout)
                ticks 1 start (S N) n' t' Hf Hs ltac:(lia) ltac:(lia) Hn')
    as [En' _].
  pose proof (dial_loop_consecutive closeErr x handle handleErr (or_second timeout)
                ticks 1 start N n t n' t' Hf Hs ltac:(lia) ltac:(lia) Hn Hn')
    as Hstep.
  split; lia.
Qed.

(** C7 on a run: backoff 10 ns times the attempt number, three refused
    attempts, the second of which takes 30 ns to fail. *)
Lemma dial_retry_spacing_witness :
  attempts (fst (Dial (fun _ => None)
                      {| cancel_at := None; ctx_err := "context canceled"%string |}
                      (Some (fun _ => Returns)) true (Some (fun n => 10 * n)) 0
                      [DialFails "refused"%string 1 0; DialFails "refused"%string 30 0;
                       DialFails "refused"%string 0 2]))
  = [(1, 0); (2, 10); (3, 40)]
  /\ 3 = Z.of_nat 2 + 1
  /\ 0 + backoff_sum (fun n => 10 * n) 2 <= 40.
Proof.
  split; [reflexivity|].
  pose proof (dial_retry_spacing
                (fun _ => None)
                {| cancel_at := None; ctx_err := "context canceled"%string |}
                (fun _ => Returns) true (Some (fun n => 10 * n)) 0
                [DialFails "refused"%string 1 0; DialFails "refused"%string 30 0;
                 DialFails "refused"%string 0 2]
                2 3 40 eq_refl eq_refl) as T.
  assert (Hmax : Z.of_nat 2 + 2 <= int_max) by (unfold int_max; simpl; lia).
  destruct (T Hmax eq_refl) as [Hn [Ht _]].
  split; [exact Hn | exact Ht].
Defined.

(** C8: when the attempt that connects is made, the loop is over: what
    the environment would answer to further attempts plays no part; the
    connection goes to [handle] once and is closed once, after; and
    [Dial] returns what [Close] returns, nil or an error, when [handle]
    returns (a panic of [handle] goes on after the [Close]). *)
Theorem dial_first_connection_closes
        (closeErr : Conn -> option error) (x : context) (handle : handleFn)
        (handleErr : bool) (timeout : option (Z -> Z)) (start : Z)
        (fails : list dial_tick) (c : Conn) (took : Z) (rest : list dial_tick) :
  forallb dial_fails fails = true ->
  List.length
    (attempts (fst (Dial closeErr x (Some handle) handleErr timeout start
                         (fails ++ DialConnects c took :: rest))))
  = S (List.length fails) ->
  dial_calls (fst (Dial closeErr x (Some handle) handleErr timeout start
                        (fails ++ DialConnects c took :: rest)))
  = [Handle c; Close c]
  /\ snd (Dial closeErr x (Some handle) handleErr timeout start
               (fails ++ DialConnects c took :: rest))
     = Some (match handle c with
             | Returns => Returned (closeErr c)
             | Panics => Panicked
             end)
  /\ Dial closeErr x (Some handle) handleErr timeout start
          (fails ++ DialConnects c took :: rest)
     = Dial closeErr x (Some handle) handleErr timeout start
            (fails ++ [DialConnects c took]).
Proof.
  unfold Dial. intros Hf Hlen.
  destruct (dial_loop_until_connected closeErr x handle handleErr
              (or_second timeout) fails c took rest 1 start Hf Hlen) as [Hc Hr].
  split; [exact Hc|]. split; [exact Hr|].
  now apply dial_loop_stops_at_connection.
Qed.

(** C8 on a run: one refused attempt, then a connection whose [Close]
    fails while [handle] returns; no backoff given. *)
Lemma dial_first_connection_closes_witness :
  Dial (fun _ => Some "close: broken pipe"%string)
       {| cancel_at := None; ctx_err := "context canceled"%string |}
       (Some (fun _ => Returns)) false None 0
       ([DialFails "refused"%string 5 0]
          ++ DialConnects 9%nat 3 :: [DialFails "refused"%string 1 1])
  = ([Attempt 1 0; Woke 1000000000; Attempt 2 1000000000;
      DialDid (Handle 9%nat); DialDid (Close 9%nat)],
     Some (Returned (Some "close: broken pipe"%string)))
  /\ snd (Dial (fun _ => Some "close: broken pipe"%string)
               {| cancel_at := None; ctx_err := "context canceled"%string |}
               (Some (fun _ => Returns)) false None 0
               ([DialFails "refused"%string 5 0]
                  ++ DialConnects 9%nat 3 :: [DialFails "refused"%string 1 1]))
     = Some (Returned (Some "close: broken pipe"%string)).
Proof.
  split; [reflexivity|].
  exact (proj1 (proj2 (dial_first_connection_closes
                         (fun _ => Some "close: broken pipe"%string)
                         {| cancel_at := None; ctx_err := "context canceled"%string |}
                         (fun _ => Returns) false None 0
                         [DialFails "refused"%string 5 0] 9%nat 3
                         [DialFails "refused"%string 1 1]
                         eq_refl eq_refl))).
Defined.

End DialFacts.

(** * The cast dispatcher *)
Module CastFacts.
Import Go Cast.

Lemma append_inj_r (p a b : string) : (p ++ a)%string = (p ++ b)%string -> a = b.
Proof.
  induction p as [|ch p IH]; simpl; intros H; [exact H|].
  injection H as H. now apply IH.
Qed.

Lemma select2_send_ready ctx :
  done_now ctx = None -> send_now ctx = true -> select2 ctx = Some CaseSend.
Proof. unfold select2. now intros -> ->. Qed.

Lemma select2_cancelled_full ctx e :
  done_now ctx = Some e -> send_now ctx = false ->
  select2 ctx = Some (CaseDone e).
Proof. unfold select2. now intros -> ->. Qed.

Section Caster.

Context {PeerID PeerAddress NetAddr MessageBody Time : Type}.
Variable Equal : PeerID -> PeerID -> bool.
Variable format : PeerID -> string.
Variable NetworkAddress : PeerAddress -> NetAddr.

Local Abbreviation cast_ := (Cast (Time := Time) format NetworkAddress).
Local Abbreviation accept_ :=
  (AcceptCast (PeerAddress := PeerAddress) (NetAddr := NetAddr) Equal format).

(** The cause can be read back from the error. *)
Lemma newErrCastingMessage_cause to (a b : error) :
  newErrCastingMessage format to a = newErrCastingMessage format to b -> a = b.
Proof.
  unfold newErrCastingMessage. intros H. injection H as H.
  apply append_inj_r in H. now injection H.
Qed.

Lemma cast_resolved (c : caster) ctx (to : PeerID) (body : MessageBody)
      (a : PeerAddress) :
  dht c to = (Some a, None) ->
  cast_ c ctx to body
  = let send := {| To := NetworkAddress a;
                   Message := protocol.NewMessage protocol.V1 protocol.Cast body |} in
    match select2 ctx with
    | Some (CaseDone e) =>
        ([Lookup to; OfferSend send], Some (Some (newErrCastingMessage format to e)))
    | Some CaseSend => ([Lookup to; OfferSend send; Sent send], Some None)
    | None => ([Lookup to; OfferSend send], None)
    end.
Proof. unfold Cast. now intros ->. Qed.

Lemma accept_local (c : caster) ctx (now : Time) (to : PeerID)
      (body : MessageBody) :
  Equal to (me c) = true ->
  accept_ c ctx now to body
  = let event := {| Time_ := now; Message_ := body |} in
    match select2 ctx with
    | Some (CaseDone e) =>
        ([OfferEvent event], Some (Some (newErrCastingMessage format to e)))
    | Some CaseSend => ([OfferEvent event; Published event], Some None)
    | None => ([OfferEvent event], None)
    end.
Proof. unfold AcceptCast. now intros ->. Qed.

End Caster.

(** C4: when the directory lookup returns an error, or returns neither
    an error nor an address, [Cast] only looks the peer up and returns
    the casting error made from the destination and the cause: the
    directory's own error in the first case, "nil peer address" in the
    second.  The error carries the destination, its cause can be read
    back from it, and nothing is offered or sent to the outbound sink. *)
Theorem cast_unresolved_fails
        {PeerID PeerAddress NetAddr MessageBody Time : Type}
        (format : PeerID -> string) (NetworkAddress : PeerAddress -> NetAddr)
        (c : caster) (ctx : select_env) (to : PeerID) (body : MessageBody)
        (a : option PeerAddress) (oe : option error) :
  dht c to = (a, oe) ->
  oe <> None \/ a = None ->
  let cause := match oe with
               | Some e => e
               | None => "nil peer address"%string
               end in
  Cast (Time := Time) format NetworkAddress c ctx to body
  = ([Lookup to], Some (Some (newErrCastingMessage format to cause)))
  /\ PeerID_ (newErrCastingMessage format to cause) = to
  /\ (forall cause', newErrCastingMessage format to cause'
                     = newErrCastingMessage format to cause -> cause' = cause)
  /\ sent (fst (Cast (Time := Time) format NetworkAddress c ctx to body)) = []
  /\ handoffs (fst (Cast (Time := Time) format NetworkAddress c ctx to body)) = 0.
Proof.
  intros Hd Hfail cause.
  assert (Hc : Cast (Time := Time) format NetworkAddress c ctx to body
               = ([Lookup to], Some (Some (newErrCastingMessage format to cause)))).
  { unfold Cast, cause. rewrite Hd.
    destruct oe as [e|]; [now destruct a|].
    destruct Hfail as [Hfail| ->]; [congruence|reflexivity]. }
  rewrite Hc. repeat split.
  intros cause'. apply newErrCastingMessage_cause.
Qed.

(** C4 on two directories: one whose lookup fails, one that does not know
    the peer. *)
Lemma cast_unresolved_fails_witness :
  Cast (PeerAddress := string) (MessageBody := string) (Time := Z)
       (fun _ : nat => "p"%string) (fun s => s)
       {| dht := fun _ => (None, Some "table closed"%string); me := 0 |}
       {| done_now := None; send_now := true; pick_send := true;
          first_later := None |}
       3 "hello"%string
  = ([Lookup 3],
     Some (Some {| err_text := "error casting to peer=p: table closed"%string;
                   PeerID_ := 3 |}))
  /\ Cast (PeerAddress := string) (MessageBody := string) (Time := Z)
          (fun _ : nat => "p"%string) (fun s => s)
          {| dht := fun _ => (None, None); me := 0 |}
          {| done_now := None; send_now := true; pick_send := true;
             first_later := None |}
          3 "hello"%string
     = ([Lookup 3],
        Some (Some {| err_text := "error casting to peer=p: nil peer address"%string;
                      PeerID_ := 3 |})).
Proof.
  split.
  - exact (proj1 (cast_unresolved_fails
                    (PeerAddress := string) (MessageBody := string) (Time := Z)
                    (fun _ : nat => "p"%string) (fun s => s)
                    {| dht := fun _ => (None, Some "table closed"%string); me := 0 |}
                    {| done_now := None; send_now := true; pick_send := true;
                       first_later := None |}
                    3 "hello"%string None (Some "table closed"%string)
                    eq_refl (or_intror eq_refl))).
  - exact (proj1 (cast_unresolved_fails
                    (PeerAddress := string) (MessageBody := string) (Time := Z)
                    (fun _ : nat => "p"%string) (fun s => s)
                    {| dht := fun _ => (None, None); me := 0 |}
                    {| done_now := None; send_now := true; pick_send := true;
                       first_later := None |}
                    3 "hello"%string None None
                    eq_refl (or_intror eq_refl))).
Defined.

(** C5, as claimed, fails: with the context already cancelled and room
    in the outbound sink, [select] may take the send; the request is then
    enqueued and [Cast] returns nil, not a casting error. *)
Lemma cast_sends_though_cancelled :
  ~ (done_now {| done_now := Some "context canceled"%string; send_now := true;
                 pick_send := true; first_later := None |} <> None ->
     exists err,
       snd (Cast (PeerAddress := string) (MessageBody := string) (Time := Z)
                 (fun _ : nat => "p"%string) (fun s => s)
                 {| dht := fun _ => (Some "10.0.0.3:80"%string, None); me := 0 |}
                 {| done_now := Some "context canceled"%string; send_now := true;
                    pick_send := true; first_later := None |}
                 3 "hello"%string)
       = Some (Some err)).
Proof.
  intros H. destruct H as [err H]; [discriminate|]. discriminate H.
Qed.

(** C5, amended: when the directory gives an address for the peer, [Cast]
    makes exactly one handoff attempt.  If the send is taken, which it is
    when the context is not cancelled and the sink has room, exactly the
    request for that address with the V1 cast message around the body
    reaches the sink and nil is returned.  If the cancellation is taken,
    which it is when the context is cancelled while the sink has no room,
    nothing reaches the sink and the casting error made from the
    destination and [ctx.Err()] is returned.  In every case the sink gets
    that one request or nothing. *)
Theorem cast_resolved_hands_off_once
        {PeerID PeerAddress NetAddr MessageBody Time : Type}
        (format : PeerID -> string) (NetworkAddress : PeerAddress -> NetAddr)
        (c : caster) (ctx : select_env) (to : PeerID) (body : MessageBody)
        (a : PeerAddress) :
  dht c to = (Some a, None) ->
  let send := {| To := NetworkAddress a;
                 Message := protocol.NewMessage protocol.V1 protocol.Cast body |} in
  handoffs (fst (Cast (Time := Time) format NetworkAddress c ctx to body)) = 1
  /\ (select2 ctx = Some CaseSend ->
      Cast (Time := Time) format NetworkAddress c ctx to body
      = ([Lookup to; OfferSend send; Sent send], Some None))
  /\ (forall e,
        select2 ctx = Some (CaseDone e) ->
        Cast (Time := Time) format NetworkAddress c ctx to body
        = ([Lookup to; OfferSend send],
           Some (Some (newErrCastingMessage format to e))))
  /\ (done_now ctx = None -> send_now ctx = true ->
      sent (fst (Cast (Time := Time) format NetworkAddress c ctx to body)) = [send]
      /\ snd (Cast (Time := Time) format NetworkAddress c ctx to body) = Some None)
  /\ (forall e,
        done_now ctx = Some e -> send_now ctx = false ->
        sent (fst (Cast (Time := Time) format NetworkAddress c ctx to body)) = []
        /\ snd (Cast (Time := Time) format NetworkAddress c ctx to body)
           = Some (Some (newErrCastingMessage format to e)))
  /\ sent (fst (Cast (Time := Time) format NetworkAddress c ctx to body))
     = match snd (Cast (Time := Time) format NetworkAddress c ctx to body) with
       | Some None => [send]
       | _ => []
       end.
Proof.
  intros Hd send.
  rewrite (cast_resolved (Time := Time) format NetworkAddress c ctx to body a Hd).
  cbv zeta. fold send.
  split; [|split; [|split; [|split; [|split]]]].
  - destruct (select2 ctx) as [[e|]|]; reflexivity.
  - now intros ->.
  - intros e ->. reflexivity.
  - intros Hn Hs. rewrite (select2_send_ready ctx Hn Hs). now split.
  - intros e Hn Hs. rewrite (select2_cancelled_full ctx e Hn Hs). now split.
  - destruct (select2 ctx) as [[e|]|]; reflexivity.
Qed.

Lemma cast_resolved_hands_off_once_witness :
  Cast (PeerAddress := string) (MessageBody := string) (Time := Z)
       (fun _ : nat => "p"%string) (fun s => s)
       {| dht := fun _ => (Some "10.0.0.3:80"%string, None); me := 0 |}
       {| done_now := None; send_now := false; pick_send := false;
          first_later := Some CaseSend |}
       3 "hello"%string
  = ([Lookup 3;
      OfferSend {| To := "10.0.0.3:80"%string;
                   Message := protocol.NewMessage protocol.V1 protocol.Cast
                                                  "hello"%string |};
      Sent {| To := "10.0.0.3:80"%string;
              Message := protocol.NewMessage protocol.V1 protocol.Cast
                                             "hello"%string |}],
     Some None).
Proof.
  exact (proj1 (proj2 (cast_resolved_hands_off_once
                         (PeerAddress := string) (MessageBody := string) (Time := Z)
                         (fun _ : nat => "p"%string) (fun s => s)
                         {| dht := fun _ => (Some "10.0.0.3:80"%string, None);
                            me := 0 |}
                         {| done_now := None; send_now := false; pick_send := false;
                            first_later := Some CaseSend |}
                         3 "hello"%string "10.0.0.3:80"%string eq_refl))
               eq_refl).
Defined.

(** C6, as claimed, fails: a cast addressed to the local identity whose
    context is cancelled while the event sink has no room publishes
    nothing and returns a casting error. *)
Lemma accept_cast_local_cancelled :
  ~ (Nat.eqb 1 1 = true ->
     (exists ev,
         published
           (fst (AcceptCast (PeerAddress := string) (NetAddr := string)
                            (MessageBody := string) (Time := Z)
                            Nat.eqb (fun _ : nat => "p"%string)
                            {| dht := fun _ => (None, None); me := 1 |}
                            {| done_now := Some "context canceled"%string;
                               send_now := false; pick_send := false;
                               first_later := None |}
                            1700000000%Z 1 "hello"%string))
         = [ev] /\ Message_ ev = "hello"%string)
     /\ snd (AcceptCast (PeerAddress := string) (NetAddr := string)
                        (MessageBody := string) (Time := Z)
                        Nat.eqb (fun _ : nat => "p"%string)
                        {| dht := fun _ => (None, None); me := 1 |}
                        {| done_now := Some "context canceled"%string;
                           send_now := false; pick_send := false;
                           first_later := None |}
                        1700000000%Z 1 "hello"%string)
        = Some None).
Proof.
  intros H. destruct (H eq_refl) as [_ Hret]. discriminate Hret.
Qed.

(** C6, amended: a cast addressed to the local identity is offered to the
    event sink exactly once; if the sink takes it, exactly one event,
    carrying the body, is published and nil is returned; if the
    cancellation is taken, nothing is published and the casting error
    made from the destination and [ctx.Err()] is returned.  A cast
    addressed to anyone else is not offered at all and returns the
    casting error whose cause is "no peer available for forwarding". *)
Theorem accept_cast_local_only
        {PeerID PeerAddress NetAddr MessageBody Time : Type}
        (Equal : PeerID -> PeerID -> bool) (format : PeerID -> string)
        (c : caster (PeerAddress := PeerAddress)) (ctx : select_env)
        (now : Time) (to : PeerID) (body : MessageBody) :
  (Equal to (me c) = true ->
   handoffs (fst (AcceptCast (NetAddr := NetAddr) Equal format c ctx now to body)) = 1
   /\ (select2 ctx = Some CaseSend ->
       published (fst (AcceptCast (NetAddr := NetAddr) Equal format c ctx now to body))
       = [{| Time_ := now; Message_ := body |}]
       /\ snd (AcceptCast (NetAddr := NetAddr) Equal format c ctx now to body)
          = Some None)
   /\ (forall e,
         select2 ctx = Some (CaseDone e) ->
         published (fst (AcceptCast (NetAddr := NetAddr) Equal format c ctx now to body))
         = []
         /\ snd (AcceptCast (NetAddr := NetAddr) Equal format c ctx now to body)
            = Some (Some (newErrCastingMessage format to e))))
  /\ (Equal to (me c) = false ->
      AcceptCast (NetAddr := NetAddr) Equal format c ctx now to body
      = ([], Some (Some (newErrCastingMessage
                           format to "no peer available for forwarding"%string)))
      /\ published (fst (AcceptCast (NetAddr := NetAddr) Equal format c ctx now to body))
         = []).
Proof.
  split.
  - intros He.
    rewrite (accept_local (NetAddr := NetAddr) Equal format c ctx now to body He).
    cbv zeta. split; [|split].
    + destruct (select2 ctx) as [[e|]|]; reflexivity.
    + intros ->. now split.
    + intros e ->. now split.
  - intros He. unfold AcceptCast. rewrite He. now split.
Qed.

Lemma accept_cast_local_only_witness :
  (published
     (fst (AcceptCast (PeerAddress := string) (NetAddr := string)
                      (MessageBody := string) (Time := Z)
                      Nat.eqb (fun _ : nat => "p"%string)
                      {| dht := fun _ => (None, None); me := 1 |}
                      {| done_now := None; send_now := true; pick_send := false;
                         first_later := None |}
                      1700000000%Z 1 "hello"%string))
   = [{| Time_ := 1700000000%Z; Message_ := "hello"%string |}]
   /\ snd (AcceptCast (PeerAddress := string) (NetAddr := string)
                      (MessageBody := string) (Time := Z)
                      Nat.eqb (fun _ : nat => "p"%string)
                      {| dht := fun _ => (None, None); me := 1 |}
                      {| done_now := None; send_now := true; pick_send := false;
                         first_later := None |}
                      1700000000%Z 1 "hello"%string)
      = Some None)
  /\ AcceptCast (PeerAddress := string) (NetAddr := string)
                (MessageBody := string) (Time := Z)
                Nat.eqb (fun _ : nat => "p"%string)
                {| dht := fun _ => (None, None); me := 1 |}
                {| done_now := None; send_now := true; pick_send := false;
                   first_later := None |}
                1700000000%Z 2 "hello"%string
     = ([], Some (Some {| err_text :=
                            "error casting to peer=p: no peer available for forwarding"%string;
                          PeerID_ := 2 |})).
Proof.
  split.
  - exact (proj1 (proj2 (proj1 (accept_cast_local_only
                                  (PeerAddress := string) (NetAddr := string)
                                  (MessageBody := string) (Time := Z)
                                  Nat.eqb (fun _ : nat => "p"%string)
                                  {| dht := fun _ => (None, None); me := 1 |}
                                  {| done_now := None; send_now := true;
                                     pick_send := false; first_later := None |}
                                  1700000000%Z 1 "hello"%string)
                               eq_refl))
                 eq_refl).
  - exact (proj1 (proj2 (accept_cast_local_only
                           (PeerAddress := string) (NetAddr := string)
                           (MessageBody := string) (Time := Z)
                           Nat.eqb (fun _ : nat => "p"%string)
                           {| dht := fun _ => (None, None); me := 1 |}
                           {| done_now := None; send_now := true;
                              pick_send := false; first_later := None |}
                           1700000000%Z 2 "hello"%string)
                        eq_refl)).
Defined.

End CastFacts.

(** * The listener: what a whole run does *)
Module ListenRun.
Import Go Tcp ListenFacts.

Section Listener.

Variable closeErr : Conn -> option error.
Variable handle : handleFn.
Variable handleErr : bool.
Variable allow : option allowFn.

Local Abbreviation loop := (accept_loop closeErr handle handleErr allow).
Local Abbreviation listen :=
  (ListenWithListener closeErr (Some handle) handleErr allow).

Lemma closed_conns_app a b : closed_conns (a ++ b) = closed_conns a ++ closed_conns b.
Proof.
  induction a as [|[] a IH]; simpl; try rewrite IH;
    try rewrite app_assoc; reflexivity.
Qed.

Lemma allowed_app a b : allowed (a ++ b) = allowed a ++ allowed b.
Proof.
  induction a as [|[] a IH]; simpl; try rewrite IH; reflexivity.
Qed.

(** What one turn contributes, read off the three branches of the loop
    body. *)
Lemma turn_summary c :
  reports (serve closeErr handle allow c) = []
  /\ closed_conns (serve closeErr handle allow c) = [c]
  /\ cleanups_run (serve closeErr handle allow c) = admitted_cleanup allow c
  /\ allowed (serve closeErr handle allow c)
     = match allow with Some _ => [c] | None => [] end.
Proof.
  unfold serve, spawn, admitted_cleanup.
  destruct allow as [policy|].
  - destruct (policy c) as [[e|] [k|]]; cbn [snd];
      try rewrite run_serve_admitted_cleanup;
      try rewrite run_serve_admitted_plain; repeat split.
  - rewrite run_serve_open. repeat split.
Qed.

Lemma report_summary e :
  closed_conns (report handleErr e) = []
  /\ cleanups_run (report handleErr e) = []
  /\ allowed (report handleErr e) = []
  /\ reports (report handleErr e) = if handleErr then [e] else [].
Proof. unfold report; destruct handleErr; repeat split. Qed.

Lemma loop_summary ticks :
  reports (fst (loop ticks))
  = (if handleErr
     then map (fun e => ("accept connection: " ++ e)%string) (accept_errors ticks)
     else [])
  /\ closed_conns (fst (loop ticks)) = accepted ticks
  /\ cleanups_run (fst (loop ticks)) = flat_map (admitted_cleanup allow) (accepted ticks)
  /\ allowed (fst (loop ticks))
     = match allow with Some _ => accepted ticks | None => [] end
  /\ snd (loop ticks) = option_map Some (cancelled_with ticks).
Proof.
  induction ticks as [|[e|e|c] rest IH].
  - simpl. destruct handleErr, allow; repeat split.
  - simpl. destruct handleErr, allow; repeat split.
  - destruct IH as [Hr [Hc [Hk [Ha Hs]]]].
    pose proof (report_summary ("accept connection: " ++ e)%string)
      as [Rc [Rk [Ra Rr]]].
    cbn [accept_loop accepted accept_errors cancelled_with].
    destruct (loop rest) as [tr r]. cbn [fst snd] in *.
    rewrite reports_app, closed_conns_app, cleanups_run_app, allowed_app.
    rewrite Rc, Rk, Ra, Rr, Hr, Hc, Hk, Ha, Hs.
    destruct handleErr, allow; repeat split.
  - destruct IH as [Hr [Hc [Hk [Ha Hs]]]].
    pose proof (turn_summary c) as [Tr [Tc [Tk Ta]]].
    cbn [accept_loop accepted accept_errors cancelled_with].
    destruct (loop rest) as [tr r]. cbn [fst snd] in *.
    cbn [reports closed_conns cleanups_run allowed flat_map].
    rewrite reports_app, closed_conns_app, cleanups_run_app, allowed_app.
    rewrite Tr, Tc, Tk, Ta, Hr, Hc, Hk, Ha, Hs.
    destruct allow; repeat split.
Qed.

(** The deferred [listener.Close()] is the only thing a returning call
    adds to what the loop did. *)
Lemma listen_trace ticks :
  fst (listen ticks)
  = fst (loop ticks)
      ++ match cancelled_with ticks with
         | Some _ => [Did ListenerClose]
         | None => []
         end
  /\ snd (listen ticks) = option_map Some (cancelled_with ticks).
Proof.
  destruct (loop_summary ticks) as [_ [_ [_ [_ Hs]]]].
  unfold ListenWithListener. destruct (loop ticks) as [tr r]. cbn [fst snd] in *.
  subst r. destruct (cancelled_with ticks); cbn [option_map fst snd].
  - now split.
  - now rewrite app_nil_r.
Qed.

Lemma loop_never_closes_listener ticks :
  ~ In ListenerClose (loop_calls (fst (loop ticks))).
Proof.
  rewrite loop_calls_accept_loop. intros H.
  apply in_flat_map in H. destruct H as [c [_ H]].
  rewrite loop_calls_serve in H.
  destruct (admits allow c); [contradiction|].
  destruct H as [H|[]]. discriminate.
Qed.

End Listener.

(** X1: every error [Accept] returns before the context is seen done is
    passed to [handleErr], wrapped as "accept connection: ...", in the
    order of occurrence, and nothing else is; without a [handleErr]
    nothing is reported. *)
Theorem accept_errors_reported
        (closeErr : Conn -> option error) (handle : handleFn)
        (handleErr : bool) (allow : option allowFn) (ticks : list tick) :
  reports (fst (ListenWithListener closeErr (Some handle) handleErr allow ticks))
  = if handleErr
    then map (fun e => ("accept connection: " ++ e)%string) (accept_errors ticks)
    else [].
Proof.
  destruct (listen_trace closeErr handle handleErr allow ticks) as [-> _].
  destruct (loop_summary closeErr handle handleErr allow ticks) as [Hr _].
  rewrite reports_app, Hr.
  destruct (cancelled_with ticks); cbn [reports]; apply app_nil_r.
Qed.

(** X2: a call with a [handle] returns only when the loop sees the
    context done: it then returns that [ctx.Err()], has closed the
    listener exactly once, as its last act, and ignores whatever the
    listener would have answered afterwards; until then it has no result
    and has not closed the listener. *)
Theorem listener_returns_only_on_cancellation
        (closeErr : Conn -> option error) (handle : handleFn)
        (handleErr : bool) (allow : option allowFn) (ticks : list tick) :
  snd (ListenWithListener closeErr (Some handle) handleErr allow ticks)
  = option_map Some (cancelled_with ticks)
  /\ listener_closes (fst (ListenWithListener closeErr (Some handle) handleErr allow ticks))
     = match cancelled_with ticks with Some _ => 1 | None => 0 end
  /\ (forall e,
        cancelled_with ticks = Some e ->
        exists tr,
          fst (ListenWithListener closeErr (Some handle) handleErr allow ticks)
          = tr ++ [Did ListenerClose])
  /\ (forall pre e post,
        forallb listening pre = true ->
        ListenWithListener closeErr (Some handle) handleErr allow
                           (pre ++ CtxDone e :: post)
        = ListenWithListener closeErr (Some handle) handleErr allow
                             (pre ++ [CtxDone e])).
Proof.
  destruct (listen_trace closeErr handle handleErr allow ticks) as [Ht Hs].
  split; [exact Hs|]. split; [|split].
  - unfold listener_closes. rewrite Ht, loop_calls_app, count_occ_app.
    rewrite (proj1 (count_occ_not_In ev_eq_dec _ _)
               (loop_never_closes_listener closeErr handle handleErr allow ticks)).
    destruct (cancelled_with ticks); reflexivity.
  - intros e He. rewrite Ht, He. eexists; reflexivity.
  - intros pre e post Hpre.
    now rewrite !(listen_app closeErr handle handleErr allow pre _ Hpre).
Qed.



(** X5: a policy is asked exactly once about each accepted connection, in
    the order of acceptance, also about those it then rejects. *)
Theorem policy_asked_once_per_connection
        (closeErr : Conn -> option error) (handle : handleFn)
        (handleErr : bool) (policy : allowFn) (ticks : list tick) :
  allowed (fst (ListenWithListener closeErr (Some handle) handleErr (Some policy) ticks))
  = accepted ticks.
Proof.
  destruct (listen_trace closeErr handle handleErr (Some policy) ticks) as [-> _].
  destruct (loop_summary closeErr handle handleErr (Some policy) ticks)
    as [_ [_ [_ [Ha _]]]].
  rewrite allowed_app, Ha.
  destruct (cancelled_with ticks); apply app_nil_r.
Qed.

(** X6: a goroutine of the listener ends panicking exactly when [handle]
    panics on its connection or the cleanup it was admitted with panics;
    its [Close] has run in either case. *)
Theorem goroutine_panics_iff_user_code_panics
        (closeErr : Conn -> option error) (handle : handleFn)
        (handleErr : bool) (allow : option allowFn) (ticks : list tick)
        (c : Conn) (evs : list ev) (o : outcome) :
  In (c, evs, o)
     (goroutines (fst (ListenWithListener closeErr (Some handle) handleErr allow ticks))) ->
  (o = Panics <->
   handle c = Panics
   \/ exists policy k, allow = Some policy /\ policy c = (None, Some k)
                       /\ cleanup_ends k = Panics)
  /\ closes evs = [c].
Proof.
  intros Hin. apply spawned_by_turn in Hin. destruct Hin as [_ Hg].
  rewrite goroutines_serve in Hg. unfold admits in Hg.
  destruct allow as [policy|].
  - destruct (policy c) as [[e|] [k|]] eqn:Hp; cbn [snd] in Hg;
      try discriminate; inversion Hg; subst; split; try reflexivity.
    + split.
      * intros Ho. destruct (handle c); [|now left].
        right. exists policy, k. repeat split; [exact Hp|].
        now destruct (cleanup_ends k).
      * intros [Hh|[p [k' [Hp' [Hk He]]]]].
        -- now rewrite Hh.
        -- inversion Hp'; subst p. rewrite Hp in Hk. inversion Hk; subst k'.
           rewrite He. now destruct (handle c).
    + split; [now left|].
      intros [Hh|[p [k' [Hp' [Hk He]]]]]; [exact Hh|].
      inversion Hp'; subst p. rewrite Hp in Hk. discriminate.
  - inversion Hg; subst. split; [|reflexivity]. split; [now left|].
    intros [Hh|[p [k' [Hp' _]]]]; [exact Hh|discriminate].
Qed.

Lemma goroutine_panics_iff_user_code_panics_witness :
  (Panics = Panics <->
   (fun _ : Conn => Returns) 3 = Panics
   \/ exists policy k,
       Some (fun _ : Conn => (@None error,
                              Some {| cleanup_tag := 1; cleanup_ends := Panics |}))
       = Some policy
       /\ policy 3 = (None, Some k) /\ cleanup_ends k = Panics)
  /\ closes [Handle 3; Cleanup 1; Close 3] = [3].
Proof.
  apply (goroutine_panics_iff_user_code_panics
           (fun _ => None) (fun _ => Returns) false
           (Some (fun _ => (None, Some {| cleanup_tag := 1; cleanup_ends := Panics |})))
           [AcceptGives 3] 3 [Handle 3; Cleanup 1; Close 3] Panics).
  left; reflexivity.
Defined.

End ListenRun.

(** * The dialer: what a whole run does *)
Module DialRun.
Import Go Tcp DialFacts.

Local Open Scope Z_scope.

Section Dialer.

Variable closeErr : Conn -> option error.
Variable x : context.
Variable handle : handleFn.
Variable handleErr : bool.
Variable f : Z -> Z.

Local Abbreviation loop := (dial_loop closeErr x handle handleErr f).
Local Abbreviation cancelled :=
  (Some (Returned (Some ("dialing " ++ ctx_err x)%string))).

Lemma wakes_report e l : wakes (dial_report handleErr e ++ l) = wakes l.
Proof. unfold dial_report; now destruct handleErr. Qed.


(** The three ways a run can stand. *)
Lemma dial_loop_outcome ticks : forall a now,
  (snd (loop a now ticks) = None /\ dial_calls (fst (loop a now ticks)) = [])
  \/ (snd (loop a now ticks) = cancelled
      /\ dial_calls (fst (loop a now ticks)) = [])
  \/ (exists c,
         first_connection ticks = Some c
         /\ dial_calls (fst (loop a now ticks)) = [Handle c; Close c]
         /\ snd (loop a now ticks)
            = Some (match handle c with
                    | Returns => Returned (closeErr c)
                    | Panics => Panicked
                    end)).
Proof.
  induction ticks as [|[e took lag|c took] rest IH]; intros a now;
    destruct (ctx_is_done x now) eqn:Hd;
    try (rewrite dial_loop_done by exact Hd; right; left; now split).
  - left. simpl. rewrite Hd. now split.
  - rewrite dial_loop_fails by exact Hd. cbn [fst snd dial_calls first_connection].
    rewrite dial_calls_report. cbn [dial_calls]. apply IH.
  - rewrite dial_loop_connects by exact Hd. right; right. exists c. now repeat split.
Qed.

Lemma dial_loop_attempts_open ticks : forall a now n t,
  In (n, t) (attempts (fst (loop a now ticks))) -> ctx_is_done x t = false.
Proof.
  induction ticks as [|[e took lag|c took] rest IH]; intros a now n t;
    destruct (ctx_is_done x now) eqn:Hd;
    try (rewrite dial_loop_done by exact Hd; intros []).
  - simpl. rewrite Hd. intros [].
  - rewrite dial_loop_fails by exact Hd. cbn [fst attempts].
    rewrite attempts_report. cbn [attempts]. intros [H|H].
    + now inversion H; subst.
    + now apply IH in H.
  - rewrite dial_loop_connects by exact Hd. cbn [fst attempts].
    intros [H|[]]. now inversion H; subst.
Qed.

Lemma dial_loop_wakes_bounded tc d ticks : forall a now,
  cancel_at x = Some tc ->
  0 <= d ->
  forallb (tick_within d) ticks = true ->
  forall w, In w (wakes (fst (loop a now ticks))) -> w <= tc + d.
Proof.
  induction ticks as [|[e took lag|c took] rest IH]; intros a now Hc Hd0 Hw w;
    destruct (ctx_is_done x now) eqn:Hd;
    try (rewrite dial_loop_done by exact Hd; intros []).
  - simpl. rewrite Hd. intros [].
  - rewrite dial_loop_fails by exact Hd. cbn [fst wakes].
    rewrite wakes_report. cbn [wakes].
    cbn [forallb tick_within] in Hw.
    apply andb_prop in Hw. destruct Hw as [Hw0 Hw].
    apply andb_prop in Hw0. destruct Hw0 as [Htook Hlag].
    apply Z.leb_le in Htook, Hlag.
    intros [H|H].
    + subst w. unfold ctx_is_done in Hd. unfold timeout_done_at.
      rewrite Hc in *. apply Z.leb_gt in Hd. lia.
    + eapply IH; eauto.
  - rewrite dial_loop_connects by exact Hd. intros [].
Qed.

Lemma dial_loop_gives_up tc ticks : forall a now,
  cancel_at x = Some tc ->
  (forall n, 1 <= f n) ->
  forallb dial_fails ticks = true ->
  forallb tick_sane ticks = true ->
  tc - now <= Z.of_nat (List.length ticks) ->
  snd (loop a now ticks) = cancelled
  /\ dial_calls (fst (loop a now ticks)) = [].
Proof.
  induction ticks as [|[e took lag|c took] rest IH];
    intros a now Hc Hpos Hf Hs Hlen;
    destruct (ctx_is_done x now) eqn:Hd;
    try (rewrite dial_loop_done by exact Hd; now split).
  - unfold ctx_is_done in Hd. rewrite Hc in Hd. apply Z.leb_gt in Hd.
    cbn [List.length] in Hlen. lia.
  - rewrite dial_loop_fails by exact Hd. cbn [fst snd dial_calls].
    rewrite dial_calls_report. cbn [dial_calls].
    cbn [forallb dial_fails tick_sane] in Hf, Hs.
    apply andb_prop in Hs. destruct Hs as [Hs0 Hs].
    apply andb_prop in Hs0. destruct Hs0 as [Htook Hlag].
    apply Z.leb_le in Htook, Hlag.
    apply IH; try assumption.
    unfold ctx_is_done in Hd. unfold timeout_done_at. rewrite Hc in *.
    apply Z.leb_gt in Hd. specialize (Hpos a).
    cbn [List.length] in Hlen. lia.
  - discriminate.
Qed.

Lemma dial_loop_spins ticks : forall a now,
  ctx_is_done x now = false ->
  (forall n, f n <= 0) ->
  forallb dial_fails ticks = true ->
  forallb tick_sane ticks = true ->
  forallb (tick_within 0) ticks = true ->
  map snd (attempts (fst (loop a now ticks))) = repeat now (List.length ticks)
  /\ snd (loop a now ticks) = None.
Proof.
  induction ticks as [|[e took lag|c took] rest IH];
    intros a now Hd Hneg Hf Hs Hw.
  - simpl. rewrite Hd. now split.
  - rewrite dial_loop_fails by exact Hd. cbn [fst snd attempts].
    rewrite attempts_report. cbn [attempts map List.length repeat].
    cbn [forallb dial_fails tick_sane tick_within] in Hf, Hs, Hw.
    apply andb_prop in Hs. destruct Hs as [Hs0 Hs].
    apply andb_prop in Hs0. destruct Hs0 as [Htook Hlag].
    apply andb_prop in Hw. destruct Hw as [Hw0 Hw].
    apply andb_prop in Hw0. destruct Hw0 as [Htook' Hlag'].
    apply Z.leb_le in Htook, Hlag, Htook', Hlag'.
    assert (Hwoke : Z.max (now + took) (timeout_done_at x now (f a) + lag) = now).
    { unfold ctx_is_done in Hd. unfold timeout_done_at. specialize (Hneg a).
      destruct (cancel_at x) as [tc|]; [apply Z.leb_gt in Hd|]; lia. }
    rewrite Hwoke.
    destruct (IH (int_incr a) now Hd Hneg Hf Hs Hw) as [-> ->]. now split.
  - discriminate.
Qed.


End Dialer.

(** X7: whatever the environment answers, a [Dial] with a [handle] stands
    in one of three ways: still dialing, with no call made on any
    connection; returned "dialing <ctx.Err()>", with no call made on any
    connection; or done with the first connection obtained, on which it
    called [handle] once and then [Close] once, returning what [Close]
    returned (or panicking, when [handle] panicked).  It never returns nil
    without having handled a connection. *)
Theorem dial_outcomes
        (closeErr : Conn -> option error) (x : context) (handle : handleFn)
        (handleErr : bool) (timeout : option (Z -> Z)) (start : Z)
        (ticks : list dial_tick) :
  (snd (Dial closeErr x (Some handle) handleErr timeout start ticks) = None
   /\ dial_calls (fst (Dial closeErr x (Some handle) handleErr timeout start ticks)) = [])
  \/ (snd (Dial closeErr x (Some handle) handleErr timeout start ticks)
      = Some (Returned (Some ("dialing " ++ ctx_err x)%string))
      /\ dial_calls (fst (Dial closeErr x (Some handle) handleErr timeout start ticks))
         = [])
  \/ (exists c,
         first_connection ticks = Some c
         /\ dial_calls (fst (Dial closeErr x (Some handle) handleErr timeout start ticks))
            = [Handle c; Close c]
         /\ snd (Dial closeErr x (Some handle) handleErr timeout start ticks)
            = Some (match handle c with
                    | Returns => Returned (closeErr c)
                    | Panics => Panicked
                    end)).
Proof. unfold Dial. apply dial_loop_outcome. Qed.

(** X8: no dial attempt begins at or after the instant the caller's
    context is done; a [Dial] entered with the context already done makes
    no attempt at all and returns "dialing <ctx.Err()>". *)
Theorem dial_no_attempt_after_cancellation
        (closeErr : Conn -> option error) (x : context) (handle : handleFn)
        (handleErr : bool) (timeout : option (Z -> Z)) (start : Z)
        (ticks : list dial_tick) (tc : Z) :
  cancel_at x = Some tc ->
  (forall n t,
      In (n, t) (attempts (fst (Dial closeErr x (Some handle) handleErr timeout
                                     start ticks))) ->
      t < tc)
  /\ (tc <= start ->
      Dial closeErr x (Some handle) handleErr timeout start ticks
      = ([], Some (Returned (Some ("dialing " ++ ctx_err x)%string)))).
Proof.
  intros Hc. split.
  - intros n t Hin. unfold Dial in Hin. apply dial_loop_attempts_open in Hin.
    unfold ctx_is_done in Hin. rewrite Hc in Hin. now apply Z.leb_gt in Hin.
  - intros Hle. unfold Dial. apply dial_loop_done.
    unfold ctx_is_done. rewrite Hc. now apply Z.leb_le.
Qed.

Lemma dial_no_attempt_after_cancellation_witness :
  Dial (fun _ => None)
       {| cancel_at := Some 25; ctx_err := "context deadline exceeded"%string |}
       (Some (fun _ => Returns)) true (Some (fun _ => 10)) 0
       [DialFails "refused"%string 0 0; DialFails "refused"%string 0 0;
        DialFails "refused"%string 0 0; DialConnects 4%nat 0]
  = ([Attempt 1 0; DialReported "refused"%string; Woke 10;
      Attempt 2 10; DialReported "refused"%string; Woke 20;
      Attempt 3 20; DialReported "refused"%string; Woke 25],
     Some (Returned (Some "dialing context deadline exceeded"%string)))
  /\ 20 < 25.
Proof.
  split; [reflexivity|].
  apply (proj1 (dial_no_attempt_after_cancellation
                  (fun _ => None)
                  {| cancel_at := Some 25; ctx_err := "context deadline exceeded"%string |}
                  (fun _ => Returns) true (Some (fun _ => 10)) 0
                  [DialFails "refused"%string 0 0; DialFails "refused"%string 0 0;
                   DialFails "refused"%string 0 0; DialConnects 4%nat 0]
                  25 eq_refl)
               3 20).
  right; right; left; reflexivity.
Defined.

(** X9: the wait after a failed attempt does not outlast the caller's
    context: when no failing [DialContext] takes longer than [d] and no
    wake-up is later than [d], every receive from [dialCtx.Done()] has
    returned by [d] after the instant the context is done, however long
    the backoff. *)
Theorem dial_wait_ends_with_context
        (closeErr : Conn -> option error) (x : context) (handle : handleFn)
        (handleErr : bool) (timeout : option (Z -> Z)) (start : Z)
        (ticks : list dial_tick) (tc d w : Z) :
  cancel_at x = Some tc ->
  0 <= d ->
  forallb (tick_within d) ticks = true ->
  In w (wakes (fst (Dial closeErr x (Some handle) handleErr timeout start ticks))) ->
  w <= tc + d.
Proof.
  unfold Dial. intros Hc Hd Hw. now apply dial_loop_wakes_bounded.
Qed.

Lemma dial_wait_ends_with_context_witness :
  wakes (fst (Dial (fun _ => None)
                   {| cancel_at := Some 7; ctx_err := "context canceled"%string |}
                   (Some (fun _ => Returns)) false (Some (fun _ => 3600000000000)) 0
                   [DialFails "refused"%string 2 1; DialFails "refused"%string 0 0]))
  = [8]
  /\ 8 <= 7 + 2.
Proof.
  split; [reflexivity|].
  apply (dial_wait_ends_with_context
           (fun _ => None)
           {| cancel_at := Some 7; ctx_err := "context canceled"%string |}
           (fun _ => Returns) false (Some (fun _ => 3600000000000)) 0
           [DialFails "refused"%string 2 1; DialFails "refused"%string 0 0]
           7 2 8 eq_refl).
  - lia.
  - reflexivity.
  - left; reflexivity.
Defined.

(** X10: with a backoff of at least one nanosecond per attempt, a [Dial]
    whose target never accepts and whose context is done at [tc] has
    returned "dialing <ctx.Err()>", without calling [handle], after at
    most [tc - start] failed attempts. *)
Theorem dial_gives_up_when_cancelled
        (closeErr : Conn -> option error) (x : context) (handle : handleFn)
        (handleErr : bool) (timeout : option (Z -> Z)) (start : Z)
        (ticks : list dial_tick) (tc : Z) :
  cancel_at x = Some tc ->
  (forall n, 1 <= or_second timeout n) ->
  forallb dial_fails ticks = true ->
  forallb tick_sane ticks = true ->
  tc - start <= Z.of_nat (List.length ticks) ->
  snd (Dial closeErr x (Some handle) handleErr timeout start ticks)
  = Some (Returned (Some ("dialing " ++ ctx_err x)%string))
  /\ dial_calls (fst (Dial closeErr x (Some handle) handleErr timeout start ticks)) = [].
Proof.
  unfold Dial. intros Hc Hpos Hf Hs Hlen. now apply (dial_loop_gives_up _ _ _ _ _ tc).
Qed.

Lemma dial_gives_up_when_cancelled_witness :
  snd (Dial (fun _ => None)
            {| cancel_at := Some 2; ctx_err := "context canceled"%string |}
            (Some (fun _ => Returns)) false None 0
            [DialFails "refused"%string 0 0; DialFails "refused"%string 0 0])
  = Some (Returned (Some "dialing context canceled"%string))
  /\ dial_calls
       (fst (Dial (fun _ => None)
                  {| cancel_at := Some 2; ctx_err := "context canceled"%string |}
                  (Some (fun _ => Returns)) false None 0
                  [DialFails "refused"%string 0 0; DialFails "refused"%string 0 0]))
     = [].
Proof.
  apply (dial_gives_up_when_cancelled
           (fun _ => None)
           {| cancel_at := Some 2; ctx_err := "context canceled"%string |}
           (fun _ => Returns) false None 0
           [DialFails "refused"%string 0 0; DialFails "refused"%string 0 0]
           2 eq_refl).
  - intros n. unfold or_second, Second. lia.
  - reflexivity.
  - reflexivity.
  - simpl. lia.
Defined.

(** X11: a backoff that is never positive gives no pause: while the
    context is open and [DialContext] fails at once, every attempt begins
    at the instant the call began, and the call goes on for as long as the
    target refuses. *)
Theorem dial_without_backoff_spins
        (closeErr : Conn -> option error) (x : context) (handle : handleFn)
        (handleErr : bool) (f : Z -> Z) (start : Z) (ticks : list dial_tick) :
  ctx_is_done x start = false ->
  (forall n, f n <= 0) ->
  forallb dial_fails ticks = true ->
  forallb tick_sane ticks = true ->
  forallb (tick_within 0) ticks = true ->
  map snd (attempts (fst (Dial closeErr x (Some handle) handleErr (Some f) start ticks)))
  = repeat start (List.length ticks)
  /\ snd (Dial closeErr x (Some handle) handleErr (Some f) start ticks) = None.
Proof.
  unfold Dial, or_second. intros Hd Hneg Hf Hs Hw. now apply dial_loop_spins.
Qed.

Lemma dial_without_backoff_spins_witness :
  map snd
      (attempts
         (fst (Dial (fun _ => None)
                    {| cancel_at := Some 100; ctx_err := "context canceled"%string |}
                    (Some (fun _ => Returns)) false (Some (fun _ => 0)) 5
                    [DialFails "refused"%string 0 0; DialFails "refused"%string 0 0;
                     DialFails "refused"%string 0 0])))
  = [5; 5; 5].
Proof.
  apply (proj1 (dial_without_backoff_spins
                  (fun _ => None)
                  {| cancel_at := Some 100; ctx_err := "context canceled"%string |}
                  (fun _ => Returns) false (fun _ => 0) 5
                  [DialFails "refused"%string 0 0; DialFails "refused"%string 0 0;
                   DialFails "refused"%string 0 0]
                  eq_refl (fun _ => Z.le_refl 0) eq_refl eq_refl eq_refl)).
Defined.


End DialRun.

(** * The cast dispatcher: every path of a call *)
Module CastRun.
Import Go Cast.

Lemma select2_blocks ctx :
  select2 ctx = None
  <-> done_now ctx = None /\ send_now ctx = false /\ first_later ctx = None.
Proof.
  unfold select2.
  destruct (done_now ctx) as [e|], (send_now ctx), (pick_send ctx);
    split; try discriminate; try tauto;
    intros [H1 [H2 H3]]; try discriminate; assumption.
Qed.

(** X13: every error that [Cast] or [AcceptCast] returns is made by
    [newErrCastingMessage] for the destination of that call: its [PeerID]
    is the destination and its text is "error casting to peer=", the
    destination, ": " and a cause. *)
Theorem casting_errors_name_destination
        {PeerID PeerAddress NetAddr MessageBody Time : Type}
        (Equal : PeerID -> PeerID -> bool) (format : PeerID -> string)
        (NetworkAddress : PeerAddress -> NetAddr)
        (c : caster) (ctx : select_env) (now : Time) (to : PeerID)
        (body : MessageBody) (err : ErrCastingMessage) :
  snd (Cast (Time := Time) format NetworkAddress c ctx to body) = Some (Some err)
  \/ snd (AcceptCast (PeerAddress := PeerAddress) (NetAddr := NetAddr)
                     Equal format c ctx now to body) = Some (Some err) ->
  PeerID_ err = to
  /\ exists cause,
      err_text err
      = ("error casting to peer=" ++ format to ++ ": " ++ cause)%string.
Proof.
  assert (Hnew : forall cause,
             PeerID_ (newErrCastingMessage format to cause) = to
             /\ exists cause',
                 err_text (newErrCastingMessage format to cause)
                 = ("error casting to peer=" ++ format to ++ ": " ++ cause')%string).
  { intros cause. split; [reflexivity|]. now exists cause. }
  intros [H|H].
  - unfold Cast in H.
    destruct (dht c to) as [[a|] [e|]]; cbn [snd] in H;
      try (inversion H; subst; apply Hnew).
    destruct (select2 ctx) as [[e|]|]; cbn [snd] in H;
      try discriminate; inversion H; subst; apply Hnew.
  - unfold AcceptCast in H.
    destruct (Equal to (me c)); cbn [snd] in H;
      [|inversion H; subst; apply Hnew].
    destruct (select2 ctx) as [[e|]|]; cbn [snd] in H;
      try discriminate; inversion H; subst; apply Hnew.
Qed.

Lemma casting_errors_name_destination_witness :
  PeerID_ {| err_text := "error casting to peer=p: context canceled"%string;
             PeerID_ := 3 |} = 3
  /\ exists cause,
      "error casting to peer=p: context canceled"%string
      = ("error casting to peer=" ++ "p" ++ ": " ++ cause)%string.
Proof.
  apply (casting_errors_name_destination
           (PeerAddress := string) (NetAddr := string) (MessageBody := string)
           (Time := Z)
           Nat.eqb (fun _ : nat => "p"%string) (fun s => s)
           {| dht := fun _ => (Some "10.0.0.3:80"%string, None); me := 0 |}
           {| done_now := Some "context canceled"%string; send_now := false;
              pick_send := false; first_later := None |}
           0%Z 3 "hello"%string
           {| err_text := "error casting to peer=p: context canceled"%string;
              PeerID_ := 3 |}).
  left; reflexivity.
Defined.

(** X14: a handoff is all or nothing.  [Cast] returns nil exactly when
    one request has reached the outbound sink, and [AcceptCast] exactly
    when one event has reached the event sink; with an error, or while
    blocked, nothing has.  [Cast] never publishes an event; [AcceptCast]
    never looks the peer up and never sends; neither offers more than
    once. *)
Theorem handoff_all_or_nothing
        {PeerID PeerAddress NetAddr MessageBody Time : Type}
        (Equal : PeerID -> PeerID -> bool) (format : PeerID -> string)
        (NetworkAddress : PeerAddress -> NetAddr)
        (c : caster) (ctx : select_env) (now : Time) (to : PeerID)
        (body : MessageBody) :
  (List.length (sent (fst (Cast (Time := Time) format NetworkAddress c ctx to body)))
   = match snd (Cast (Time := Time) format NetworkAddress c ctx to body) with
     | Some None => 1
     | _ => 0
     end
   /\ published (fst (Cast (Time := Time) format NetworkAddress c ctx to body)) = []
   /\ handoffs (fst (Cast (Time := Time) format NetworkAddress c ctx to body)) <= 1)
  /\ (List.length
        (published (fst (AcceptCast (PeerAddress := PeerAddress) (NetAddr := NetAddr)
                                    Equal format c ctx now to body)))
      = match snd (AcceptCast (PeerAddress := PeerAddress) (NetAddr := NetAddr)
                              Equal format c ctx now to body) with
        | Some None => 1
        | _ => 0
        end
      /\ sent (fst (AcceptCast (PeerAddress := PeerAddress) (NetAddr := NetAddr)
                               Equal format c ctx now to body)) = []
      /\ (forall p,
             ~ In (Lookup p)
                  (fst (AcceptCast (PeerAddress := PeerAddress) (NetAddr := NetAddr)
                                   Equal format c ctx now to body)))
      /\ handoffs (fst (AcceptCast (PeerAddress := PeerAddress) (NetAddr := NetAddr)
                                   Equal format c ctx now to body)) <= 1).
Proof.
  split.
  - unfold Cast.
    destruct (dht c to) as [[a|] [e|]]; cbn; try (repeat split; lia).
    destruct (select2 ctx) as [[e|]|]; cbn; repeat split; lia.
  - unfold AcceptCast.
    destruct (Equal to (me c)).
    + destruct (select2 ctx) as [[e|]|]; cbn; repeat split; try lia;
        intros p H; repeat (destruct H as [H|H]; [discriminate|]); exact H.
    + cbn. repeat split; try lia; intros p [].
Qed.

(** X15: a call stays blocked in exactly one situation: the handoff has
    been reached ([Cast]: the directory gave an address and no error;
    [AcceptCast]: the destination is the local identity), the context is
    not done and never will be, and the sink never takes the value.  A
    failed resolution never blocks. *)
Theorem casts_block_only_in_handoff
        {PeerID PeerAddress NetAddr MessageBody Time : Type}
        (Equal : PeerID -> PeerID -> bool) (format : PeerID -> string)
        (NetworkAddress : PeerAddress -> NetAddr)
        (c : caster) (ctx : select_env) (now : Time) (to : PeerID)
        (body : MessageBody) :
  (snd (Cast (Time := Time) format NetworkAddress c ctx to body) = None
   <-> (exists a, dht c to = (Some a, None))
       /\ done_now ctx = None /\ send_now ctx = false /\ first_later ctx = None)
  /\ (snd (AcceptCast (PeerAddress := PeerAddress) (NetAddr := NetAddr)
                      Equal format c ctx now to body) = None
      <-> Equal to (me c) = true
          /\ done_now ctx = None /\ send_now ctx = false /\ first_later ctx = None).
Proof.
  split.
  - rewrite <- select2_blocks. unfold Cast.
    destruct (dht c to) as [[a|] [e|]]; cbn [snd];
      try (split; [discriminate | intros [[a' Ha] _]; discriminate]).
    destruct (select2 ctx) as [[e|]|]; cbn [snd]; split;
      try discriminate; try (intros [_ H]; discriminate);
      try (intros _; reflexivity).
    intros _. split; [now exists a | reflexivity].
  - rewrite <- select2_blocks. unfold AcceptCast.
    destruct (Equal to (me c)); cbn [snd].
    + destruct (select2 ctx) as [[e|]|]; cbn [snd]; split;
        try discriminate; try (intros [_ H]; discriminate);
        try (intros _; reflexivity).
      now intros _.
    + split; [discriminate | intros [H _]; discriminate].
Qed.

End CastRun.
